(** * tox.py: from a table of contents in text to pdfmark bookmarks

    A shallow embedding of [src/tox.py] and the properties of its
    tokenizer, page-offset pass, tree builder, bookmark emitter and
    chunk splitter.

    Conventions of the embedding:
    - a Python [str] is a [string]; its characters are the code points
      below 256, and the character classes of [re] and of [int] are
      given for these;
    - a Python [int] is a [Z]; [int] and [str] are modelled without the
      interpreter's adjustable limit on the number of digits;
    - a record is the Python tuple [(chapter_num, title, page)]; the page
      is a string when the record leaves [tokenize] and an integer once
      [apply_page_offset] has seen it, so it is a [pyval];
    - a generator is modelled by the list of what it yields when it is
      consumed to its end; a generator that raises gives [Raise];
    - the only exception that escapes a function here is [ValueError];
      the interpreter's recursion limit is not modelled;
    - a [find_children] policy is a function of its two arguments,
      without effects.  In [tree_ize] it returns a list of its own, as
      the default policy does; [tree_ize_policy] is the same loop for a
      policy that may also return the very list it was given, the pool,
      or a generator that selects from the pool. *)

From stdpp Require Import gmap.
From Stdlib Require Import ZArith Lia Ascii.
From stdpp Require Import base list strings pretty numbers.

(** ** Python values, exceptions *)

Inductive pyval :=
  | PStr (s : string)
  | PInt (z : Z).

Inductive exn := ValueError.

Inductive result (A : Type) :=
  | Ok (a : A)
  | Raise (e : exn).
Arguments Ok {A} a.
Arguments Raise {A} e.

#[global] Instance pyval_eq_dec : EqDecision pyval.
Proof. solve_decision. Defined.

(** [(chapter_num, title, page)] *)
Definition record : Type := string * string * pyval.

(** [node = (node_data, children)] *)
#[warnings="-register-all"]
Inductive node :=
  | Node (data : record) (children : list node).

(** ** Text: character classes, [int()] and [str()] *)

Definition newline : string := String "010"%char EmptyString.

Definition code (c : ascii) : N := N_of_ascii c.

(** [\d] and the digits [int()] accepts: below code point 256 these are
    [0-9] only. *)
Definition isdigit (c : ascii) : bool :=
  ((48 <=? code c) && (code c <=? 57))%N.

(** [[A-Z]] *)
Definition isupper (c : ascii) : bool :=
  ((65 <=? code c) && (code c <=? 90))%N.

(** [\s]: tab, line feed, vertical tab, form feed, carriage return, the
    separators 28 to 31, space, next-line (133), no-break space (160). *)
Definition isspace (c : ascii) : bool :=
  (((9 <=? code c) && (code c <=? 13)) || ((28 <=? code c) && (code c <=? 32))
   || (code c =? 133) || (code c =? 160))%N.

(** The white space [int()] strips: as [\s], without the separators 28
    to 31. *)
Definition int_space (c : ascii) : bool :=
  (((9 <=? code c) && (code c <=? 13)) || (code c =? 32)
   || (code c =? 133) || (code c =? 160))%N.

(** [[0-9.]] *)
Definition isdigit_or_dot (c : ascii) : bool :=
  isdigit c || bool_decide (c = "."%char).

(** [\.] *)
Definition isdot (c : ascii) : bool := bool_decide (c = "."%char).

(** [.] (without DOTALL): anything but a line feed *)
Definition notnewline (c : ascii) : bool := negb (bool_decide (c = "010"%char)).

Definition digit_val (c : ascii) : Z := (Z.of_N (code c) - 48)%Z.

Fixpoint lstrip (s : string) : string :=
  match s with
  | String c s' => if int_space c then lstrip s' else s
  | EmptyString => EmptyString
  end.

Fixpoint rstrip (s : string) : string :=
  match s with
  | EmptyString => EmptyString
  | String c s' =>
      match rstrip s' with
      | EmptyString => if int_space c then EmptyString else String c EmptyString
      | t => String c t
      end
  end.

(** The digits of a decimal literal, read left to right; a single [_] is
    allowed between two digits.  [after_digit] tells whether the previous
    character was a digit. *)
Fixpoint digits_value (acc : Z) (after_digit : bool) (s : string) : option Z :=
  match s with
  | EmptyString => if after_digit then Some acc else None
  | String c s' =>
      if isdigit c then digits_value (10 * acc + digit_val c)%Z true s'
      else if bool_decide (c = "_"%char) then
        if after_digit then digits_value acc false s' else None
      else None
  end.

(** [int(s)] for a string, base 10: surrounding white space is stripped,
    then an optional sign, then the digits. *)
Definition int_of_str (s : string) : option Z :=
  match rstrip (lstrip s) with
  | String "+" t => digits_value 0%Z false t
  | String "-" t => Z.opp <$> digits_value 0%Z false t
  | t => digits_value 0%Z false t
  end.

(** [int(v)] *)
Definition py_int (v : pyval) : result Z :=
  match v with
  | PInt z => Ok z
  | PStr s => match int_of_str s with
              | Some z => Ok z
              | None => Raise ValueError
              end
  end.

(** [str(v)], which is also what [str.format] inserts for [{}] *)
Definition py_str (v : pyval) : string :=
  match v with
  | PStr s => s
  | PInt z => pretty z
  end.

(** ** Regular expressions

    The part of Python's [re] that the two patterns of [tokenize] use,
    with its backtracking order: [run r s] lists every way [r] can match
    a prefix of [s], the match the engine tries first at the head.  A
    match is [(groups, matched text, remaining text)].  The star and the
    plus are those of a character class, and an optional part holds no
    group, as in the two patterns. *)

Inductive regex :=
  | Chr (p : ascii → bool)      (* one character of a class *)
  | Seq (r1 r2 : regex)
  | Opt (r : regex)             (* [r?], greedy *)
  | Star (p : ascii → bool)     (* [c*] for a class, greedy *)
  | Plus (p : ascii → bool)     (* [c+] for a class, greedy *)
  | Group (r : regex)           (* [(r)], capturing *)
  | Eol.                        (* [$] *)

(** All splits of [s] into a run of class [p] and the rest, longest run
    first. *)
Fixpoint star_runs (p : ascii → bool) (s : string) : list (string * string) :=
  match s with
  | String c s' =>
      (if p c then (λ m, (String c m.1, m.2)) <$> star_runs p s' else [])
      ++ [(EmptyString, s)]
  | EmptyString => [(EmptyString, EmptyString)]
  end.

Definition rmatch : Type := list string * string * string.

Fixpoint run (r : regex) (s : string) : list rmatch :=
  match r with
  | Chr p =>
      match s with
      | String c s' => if p c then [([], String c EmptyString, s')] else []
      | EmptyString => []
      end
  | Seq r1 r2 =>
      m1 ← run r1 s;
      m2 ← run r2 m1.2;
      [(m1.1.1 ++ m2.1.1, m1.1.2 +:+ m2.1.2, m2.2)]
  | Opt r => run r s ++ [([], EmptyString, s)]
  | Star p => (λ m, ([], m.1, m.2)) <$> star_runs p s
  | Plus p =>
      match s with
      | String c s' =>
          if p c then (λ m, ([], String c m.1, m.2)) <$> star_runs p s' else []
      | EmptyString => []
      end
  | Group r => (λ m : rmatch, (m.1.2 :: m.1.1, m.1.2, m.2)) <$> run r s
  | Eol =>
      if bool_decide (s = EmptyString ∨ s = newline)
      then [([], EmptyString, s)] else []
  end.

(** [re.match(r, line)]: the groups of the first match, [None] without
    one (the caller's [.groups()] then raises, which it catches). *)
Definition re_match (r : regex) (line : string) : option (list string) :=
  match run r line with
  | m :: _ => Some m.1.1
  | [] => None
  end.

(** ** The tokenizer *)

(** The primary pattern, written here with a blank after each star:
    ^((?:[A-Z]\.)?[0-9.]* )\s(.* )\s(\d+)$ *)
Definition reg : regex :=
  Seq (Group (Seq (Opt (Seq (Chr isupper) (Chr isdot))) (Star isdigit_or_dot)))
 (Seq (Chr isspace)
 (Seq (Group (Star notnewline))
 (Seq (Chr isspace)
 (Seq (Group (Plus isdigit))
      Eol)))).

(** The fallback pattern, with the same blank: ^(.* )\s(\d+)$ *)
Definition alt : regex :=
  Seq (Group (Star notnewline))
 (Seq (Chr isspace)
 (Seq (Group (Plus isdigit))
      Eol)).

(** What one line makes the generator do: yield a record, or print the
    diagnostic and go on. *)
Inductive tok_event :=
  | Yield (r : record)
  | Print (msg : string).

(** The loop's variables [prev_num] and [cnt]. *)
Definition tok_state : Type := string * Z.

Definition tok_init : tok_state := (EmptyString, 1%Z).

(** One turn of [for line in f]. *)
Definition tok_line (st : tok_state) (line : string) : tok_state * tok_event :=
  let '(prev_num, cnt) := st in
  match re_match reg line with
  | Some [num; title; page] =>
      ((num, 1%Z), Yield (num, title, PStr page))
  | _ =>
      match re_match alt line with
      | Some [title; page] =>
          ((prev_num, (cnt + 1)%Z),
           Yield (prev_num +:+ "." +:+ pretty cnt, title, PStr page))
      | _ => (st, Print ("Skipping toc line: " +:+ line))
      end
  end.

Fixpoint tok_loop (st : tok_state) (lines : list string) : list tok_event :=
  match lines with
  | [] => []
  | line :: lines' =>
      let '(st', ev) := tok_line st line in ev :: tok_loop st' lines'
  end.

Definition yielded (evs : list tok_event) : list record :=
  omap (λ ev, match ev with Yield r => Some r | Print _ => None end) evs.

(** [tokenize(textfile)], given the lines of the file. *)
Definition tokenize (lines : list string) : list record :=
  yielded (tok_loop tok_init lines).

(** ** The page offset *)

(** [apply_page_offset(records, offset)] *)
Fixpoint apply_page_offset (records : list record) (offset : Z)
  : result (list record) :=
  match records with
  | [] => Ok []
  | (num, title, page) :: records' =>
      match py_int page with
      | Raise e => Raise e
      | Ok p =>
          match apply_page_offset records' offset with
          | Raise e => Raise e
          | Ok out => Ok ((num, title, PInt (p + offset)%Z) :: out)
          end
      end
  end.

(** ** The tree builder *)

(** [str.startswith] *)
Definition startswith (s pre : string) : bool := String.prefix pre s.

(** [get_matching_prfx(parent_rec, records)]:
    [[(n,t,p) for n,t,p in records if n.startswith(num)]] *)
Definition get_matching_prfx (parent_rec : record) (records : list record)
  : list record :=
  let '(num, title, page) := parent_rec in
  filter (λ r : record, let '(n, t, p) := r in startswith n num) records.

(** [list.remove(x)]: drops the first element equal to [x], raises
    [ValueError] when there is none. *)
Fixpoint list_remove (x : record) (l : list record) : result (list record) :=
  match l with
  | [] => Raise ValueError
  | y :: l' =>
      if decide (y = x) then Ok l'
      else match list_remove x l' with
           | Ok l'' => Ok (y :: l'')
           | Raise e => Raise e
           end
  end.

(** [for child in children: records.remove(child)] *)
Fixpoint remove_each (children records : list record) : result (list record) :=
  match children with
  | [] => Ok records
  | child :: children' =>
      match list_remove child records with
      | Ok records' => remove_each children' records'
      | Raise e => Raise e
      end
  end.

(** [tree_ize(records, find_children)], consumed to its end.  The loop
    pops the first record, asks [find_children] for its children, removes
    them from the pool, and recurses on the children with the default
    policy (the recursive call passes no [find_children]).  [None] means
    that the fuel did not suffice. *)
Fixpoint tree_ize_fuel (fuel : nat)
    (find_children : record → list record → list record)
    (records : list record) : option (result (list node)) :=
  match fuel with
  | O => None
  | S fuel' =>
      match records with
      | [] => Some (Ok [])
      | parent :: records =>
          let children := find_children parent records in
          match remove_each children records with
          | Raise e => Some (Raise e)
          | Ok records =>
              match tree_ize_fuel fuel' get_matching_prfx children with
              | None => None
              | Some (Raise e) => Some (Raise e)
              | Some (Ok subtree) =>
                  match tree_ize_fuel fuel' find_children records with
                  | None => None
                  | Some (Raise e) => Some (Raise e)
                  | Some (Ok nodes) => Some (Ok (Node parent subtree :: nodes))
                  end
              end
          end
      end
  end.

Definition tree_ize (find_children : record → list record → list record)
    (records : list record) : option (result (list node)) :=
  tree_ize_fuel (S (length records)) find_children records.

(** [deep_len(tree)]: [sum(1+deep_len(children) for data,children in tree)].
    [node_len] is the summand of one node. *)
Fixpoint node_len (n : node) : nat :=
  match n with
  | Node data children => 1 + sum_list_with node_len children
  end.

Definition deep_len (tree : list node) : nat := sum_list_with node_len tree.

(** Depth-first pre-order list of the records of a tree. *)
Fixpoint flatten_node (n : node) : list record :=
  match n with
  | Node data children => data :: (children ≫= flatten_node)
  end.

Definition flatten (tree : list node) : list record := tree ≫= flatten_node.

(** ** The bookmark emitter *)

Definition leaf_line (num title : string) (page : pyval) : string :=
  "[/Title (" +:+ num +:+ ": " +:+ title +:+ ") /Page " +:+ py_str page
  +:+ " /OUT pdfmark" +:+ newline.

Definition branch_line (count : nat) (num title : string) (page : pyval)
  : string :=
  "[/Count -" +:+ pretty count +:+ " /Title (" +:+ num +:+ ": " +:+ title
  +:+ ") /Page " +:+ py_str page +:+ " /OUT pdfmark" +:+ newline.

(** The body of the loop of [pdfmark_toc]: what one node of the tree
    makes it yield. *)
Fixpoint pdfmark_node (n : node) : list string :=
  match n with
  | Node (num, title, page) children =>
      if bool_decide (length children = 0)
      then [leaf_line num title page]
      else branch_line (length children) num title page
           :: (children ≫= pdfmark_node)
  end.

(** [pdfmark_toc(tree)] *)
Definition pdfmark_toc (tree : list node) : list string :=
  tree ≫= pdfmark_node.

(** ** The chunk splitter *)

(** [range(start, stop, step)] as a list *)
Definition py_range (start stop step : Z) : result (list Z) :=
  if bool_decide (step = 0)%Z then Raise ValueError
  else if bool_decide (0 < step)%Z then
    Ok ((λ k : nat, start + Z.of_nat k * step)%Z
          <$> seq 0 (Z.to_nat ((stop - start + step - 1) `div` step)))
  else
    Ok ((λ k : nat, start + Z.of_nat k * step)%Z
          <$> seq 0 (Z.to_nat ((start - stop - step - 1) `div` (- step)))).

(** A slice bound brought into [0 .. len]. *)
Definition slice_bound (len i : Z) : Z :=
  if bool_decide (i < 0)%Z then Z.max 0 (i + len) else Z.min i len.

(** [l[i:j]] *)
Definition py_slice {A} (l : list A) (i j : Z) : list A :=
  let len := Z.of_nat (length l) in
  take (Z.to_nat (slice_bound len j - slice_bound len i))
       (drop (Z.to_nat (slice_bound len i)) l).

(** [splitfiles(l, n)] *)
Definition splitfiles {A} (l : list A) (n : Z) : result (list (Z * list A)) :=
  match py_range 0%Z (Z.of_nat (length l)) n with
  | Raise e => Raise e
  | Ok indices => Ok ((λ i, (i, py_slice l i (i + n)%Z)) <$> indices)
  end.

(** [wite_pdfmark_file(tree, outfile, chunksize)]: the files it writes,
    each with its name and its lines. *)
Definition wite_pdfmark_file (tree : list node) (outfile : option string)
    (chunksize : option pyval) : result (list (string * list string)) :=
  match outfile with
  | None => Ok []
  | Some outfile =>
      let lines := pdfmark_toc tree in
      match chunksize with
      | None => Ok [(outfile, lines)]
      | Some chunksize =>
          match py_int chunksize with
          | Raise e => Raise e
          | Ok n =>
              match splitfiles lines n with
              | Raise e => Raise e
              | Ok chunks =>
                  Ok ((λ c : Z * list string, (outfile +:+ pretty c.1, c.2))
                        <$> chunks)
              end
          end
      end
  end.

(** [main(self, textfile, outfile, page_offset, chunksize)], given the
    lines of the text file: the tree it prints and the files it writes. *)
Definition main (lines : list string) (outfile : option string)
    (page_offset : pyval) (chunksize : option pyval)
  : option (result (list node * list (string * list string))) :=
  match py_int page_offset with
  | Raise e => Some (Raise e)
  | Ok offset =>
      match apply_page_offset (tokenize lines) offset with
      | Raise e => Some (Raise e)
      | Ok flat =>
          match tree_ize get_matching_prfx flat with
          | None => None
          | Some (Raise e) => Some (Raise e)
          | Some (Ok tree) =>
              match wite_pdfmark_file tree outfile chunksize with
              | Raise e => Some (Raise e)
              | Ok files => Some (Ok (tree, files))
              end
          end
      end
  end.

(** ** Notions the properties are stated with *)

Definition node_data (n : node) : record :=
  match n with Node data _ => data end.

Definition node_children (n : node) : list node :=
  match n with Node _ children => children end.

(** Depth-first pre-order list of the nodes of a tree. *)
Fixpoint preorder_node (n : node) : list node :=
  match n with
  | Node data children => n :: (children ≫= preorder_node)
  end.

Definition preorder (tree : list node) : list node := tree ≫= preorder_node.

(** The directive line of one node: the line that [pdfmark_toc] yields
    for it before it turns to the children. *)
Definition directive (n : node) : string :=
  let '(Node (num, title, page) children) := n in
  if bool_decide (length children = 0)
  then leaf_line num title page
  else branch_line (length children) num title page.

(** The parent-child pairs of a tree, as [(parent record, child record)]. *)
Fixpoint edges_node (n : node) : list (record * record) :=
  match n with
  | Node data children =>
      ((λ c, (data, node_data c)) <$> children) ++ (children ≫= edges_node)
  end.

Definition edges (tree : list node) : list (record * record) :=
  tree ≫= edges_node.

(** The sibling groups of a tree: the records of its top-level nodes, and
    for each node the records of its direct children. *)
Fixpoint groups_node (n : node) : list (list record) :=
  match n with
  | Node data children =>
      (node_data <$> children) :: (children ≫= groups_node)
  end.

Definition groups (tree : list node) : list (list record) :=
  (node_data <$> tree) :: (tree ≫= groups_node).

(** The number of chunks for a positive chunk size:
    [len(range(0, len(l), n))]. *)
Definition chunk_count {A} (l : list A) (n : Z) : nat :=
  Z.to_nat ((Z.of_nat (length l) + n - 1) `div` n).

(** The fields of a line that the primary pattern accepts. *)
Definition primary (line : string) : option (string * string * string) :=
  match re_match reg line with
  | Some [num; title; page] => Some (num, title, page)
  | _ => None
  end.

(** The fields of a line that the fallback pattern accepts. *)
Definition fallback (line : string) : option (string * string) :=
  match re_match alt line with
  | Some [title; page] => Some (title, page)
  | _ => None
  end.

(** The previous chapter number, told from the lines read so far, the
    latest first: the chapter number of the latest line that the primary
    pattern accepted, the empty string when there is none. *)
Fixpoint previous_chapter_number (history : list string) : string :=
  match history with
  | [] => EmptyString
  | line :: older =>
      match primary line with
      | Some (num, _, _) => num
      | None => previous_chapter_number older
      end
  end.

(** The running subcounter, told from the lines read so far, the latest
    first: 1 after a line that the primary pattern accepted, one more
    after each line that only the fallback pattern accepted, unchanged
    after a line that neither accepted. *)
Fixpoint running_subcounter (history : list string) : Z :=
  match history with
  | [] => 1%Z
  | line :: older =>
      match primary line with
      | Some _ => 1%Z
      | None =>
          match fallback line with
          | Some _ => (running_subcounter older + 1)%Z
          | None => running_subcounter older
          end
      end
  end.

(** The loop's variables after the given lines. *)
Definition tok_state_after (st : tok_state) (lines : list string) : tok_state :=
  foldl (λ st line, (tok_line st line).1) st lines.

(** No capturing group occurs in [r]. *)
Fixpoint group_free (r : regex) : bool :=
  match r with
  | Chr _ | Star _ | Plus _ | Eol => true
  | Seq r1 r2 => group_free r1 && group_free r2
  | Opt r => group_free r
  | Group _ => false
  end.

(** Every character of [s] is of class [p]. *)
Fixpoint string_forall (p : ascii → bool) (s : string) : bool :=
  match s with
  | EmptyString => true
  | String c s' => p c && string_forall p s'
  end.

(** Where a yielded record has its page from: [r] carries as a string
    the page that the primary or else the fallback pattern matched on one
    of the [lines], and that page is one or more digits. *)
Definition page_matched (lines : list string) (r : record) : Prop :=
  ∃ line page,
    line ∈ lines
    ∧ r.2 = PStr page
    ∧ ((∃ num title, primary line = Some (num, title, page))
       ∨ (primary line = None ∧ ∃ title, fallback line = Some (title, page)))
    ∧ page ≠ EmptyString
    ∧ string_forall isdigit page = true.

(** [s] without its prefix [pre], when it has that prefix. *)
Fixpoint strip_prefix (pre s : string) : option string :=
  match pre with
  | EmptyString => Some s
  | String a pre' =>
      match s with
      | String b s' => if bool_decide (a = b) then strip_prefix pre' s' else None
      | EmptyString => None
      end
  end.

(** The text of [s] before its first blank. *)
Fixpoint until_space (s : string) : string :=
  match s with
  | EmptyString => EmptyString
  | String c s' =>
      if bool_decide (c = " "%char) then EmptyString
      else String c (until_space s')
  end.

(** The count of a directive line: the integer after the key [/Count]
    when the line opens with that key, nothing otherwise. *)
Definition count_field (line : string) : option Z :=
  rest ← strip_prefix "[/Count " line; int_of_str (until_space rest).

(** [needle in s] *)
Fixpoint contains (needle s : string) : bool :=
  String.prefix needle s
  || match s with
     | EmptyString => false
     | String _ s' => contains needle s'
     end.

(** [c] is none of the characters of [needle]. *)
Definition foreign (c : ascii) (needle : string) : Prop :=
  string_forall (λ x, negb (bool_decide (x = c))) needle = true.

(** What the line of the node [n] says of a count.  For a node with
    children the line opens with the field [/Count] and minus their
    number.  For a node without children the text [/Count] is in the
    line exactly when it is in the record's own chapter number, title or
    page. *)
Definition count_stated (n : node) (line : string) : Prop :=
  let '(Node (num, title, page) children) := n in
  match children with
  | [] =>
      contains "/Count" line
      = contains "/Count" num || contains "/Count" title
        || contains "/Count" (py_str page)
  | _ :: _ =>
      String.prefix ("[/Count -" +:+ pretty (length children) +:+ " /Title (")
        line = true
      ∧ count_field line = Some (- Z.of_nat (length children))%Z
  end.

(** [pre] is a prefix of [s] and differs from it. *)
Definition proper_prefix (pre s : string) : Prop :=
  startswith s pre = true ∧ pre ≠ s.

(** The graph of the tree builder under the default policy: the children
    of the first record are the records of the rest that start with its
    chapter number, the loop goes on with the others. *)
Inductive tree_ize_graph : list record → list node → Prop :=
  | tree_ize_nil : tree_ize_graph [] []
  | tree_ize_cons parent rest subtree nodes :
      tree_ize_graph (get_matching_prfx parent rest) subtree →
      tree_ize_graph
        (filter (λ r : record, ¬ startswith r.1.1 parent.1.1) rest) nodes →
      tree_ize_graph (parent :: rest) (Node parent subtree :: nodes).

(** ** The two checks *)

(** [len(s)] *)
Definition py_len (s : string) : Z := Z.of_nat (String.length s).

(** What [print(num, title, page)] writes. *)
Definition print_record (r : record) : string :=
  let '(num, title, page) := r in
  num +:+ " " +:+ title +:+ " " +:+ py_str page +:+ newline.

(** [check_title_length(maxlen, records)]: what it prints. *)
Fixpoint check_title_length (maxlen : Z) (records : list record) : list string :=
  match records with
  | [] => []
  | (num, title, page) :: records' =>
      if bool_decide (maxlen < py_len num + py_len title + 1)%Z
      then print_record (num, title, page) :: check_title_length maxlen records'
      else check_title_length maxlen records'
  end.

#[global] Instance pyval_countable : Countable pyval :=
  inj_countable'
    (λ v, match v with PStr s => inl s | PInt z => inr z end)
    (λ x, match x with inl s => PStr s | inr z => PInt z end)
    (λ v, match v with PStr _ => eq_refl | PInt _ => eq_refl end).

(** The loop of [check_duplicate_targets]:
    [counts[page] = counts.get(page,0)+1] for each record. *)
Fixpoint count_pages (counts : gmap pyval Z) (records : list record)
  : gmap pyval Z :=
  match records with
  | [] => counts
  | (n, t, page) :: records' =>
      count_pages (<[page := (default 0%Z (counts !! page) + 1)%Z]> counts)
        records'
  end.

(** [check_duplicate_targets(records)]: the dictionary it prints,
    [{k:v for k,v in counts.items() if v!=1}]. *)
Definition check_duplicate_targets (records : list record) : gmap pyval Z :=
  filter (λ kv : pyval * Z, kv.2 ≠ 1%Z) (count_pages ∅ records).

(** ** Notions of the further properties *)

(** The diagnostics among the events of the tokenizer. *)
Definition printed (evs : list tok_event) : list string :=
  omap (λ ev, match ev with Yield _ => None | Print msg => Some msg end) evs.

(** The number of records of [records] with the page [page]. *)
Definition page_refs (page : pyval) (records : list record) : nat :=
  length (filter (λ r : record, r.2 = page) records).

(** The text between the parentheses of the [/Title] field. *)
Definition title_text (r : record) : string := r.1.1 +:+ ": " +:+ r.1.2.

(** A chapter number as the primary pattern captures it: a capital
    letter and a dot, or nothing, and then digits and dots. *)
Definition chapter_shape (num : string) : Prop :=
  ∃ digits, string_forall isdigit_or_dot digits = true
    ∧ (num = digits
       ∨ ∃ letter, isupper letter = true
                   ∧ num = String letter (String "." digits)).

(** [s] is one line of text: a line feed at its end and nowhere else. *)
Definition one_line (s : string) : Prop :=
  ∃ body, s = body +:+ newline ∧ string_forall notnewline body = true.

(** A tree with [f] applied to the record of every node. *)
Fixpoint node_map (f : record → record) (n : node) : node :=
  match n with
  | Node data children => Node (f data) (node_map f <$> children)
  end.

(** What [apply_page_offset] makes of one record. *)
Definition offset_record (offset : Z) (r : record) : record :=
  match py_int r.2 with
  | Ok p => (r.1, PInt (p + offset)%Z)
  | Raise _ => r
  end.

(** Every list of siblings of a tree: the top-level nodes, and the
    children of each node. *)
Fixpoint sibling_lists_node (n : node) : list (list node) :=
  match n with
  | Node data children => children :: (children ≫= sibling_lists_node)
  end.

Definition sibling_lists (tree : list node) : list (list node) :=
  tree :: (tree ≫= sibling_lists_node).

(** What holds of a list of siblings: the records below a node start
    with its chapter number, those of its later siblings and below them
    do not. *)
Definition siblings_split (siblings : list node) : Prop :=
  ∀ before n after, siblings = before ++ n :: after →
    Forall (λ r : record, startswith r.1.1 (node_data n).1.1 = true)
      (flatten (node_children n))
    ∧ Forall (λ r : record, startswith r.1.1 (node_data n).1.1 = false)
        (flatten after).

(** The record puts no line feed into its directive. *)
Definition record_one_line (r : record) : Prop :=
  string_forall notnewline r.1.1 = true
  ∧ string_forall notnewline r.1.2 = true
  ∧ string_forall notnewline (py_str r.2) = true.

(** [page] is the digit string that a pattern matched on [line]: one or
    more digits that stand after a white-space character and end the
    line, a final line feed apart. *)
Definition page_of_line (line page : string) : Prop :=
  ∃ before c tail,
    line = before +:+ String c (page +:+ tail)
    ∧ isspace c = true
    ∧ (tail = EmptyString ∨ tail = newline)
    ∧ page ≠ EmptyString
    ∧ string_forall isdigit page = true.

(** ** The tree builder, for a policy that may return the pool *)

(** What a policy returns: a list of its own; the list it was given;
    or a lazy selection from the list it was given, as the generator
    [(r for r in records if select(r))] and [filter(select, records)]
    are. *)
Inductive found :=
  | Fresh (children : list record)
  | Pool
  | Lazy (select : record → bool).

(** [for child in children: records.remove(child)] when [children] reads
    [records] itself while the loop runs.  The iterator of a list is an
    index into it: the loop takes the first selected element at or after
    the index, removes the first element equal to it from the list, and
    goes on from the index after the one it took, until no selected
    element is left from the index on.  For the pool itself every
    element is selected.  [None] means that the fuel did not suffice. *)
Fixpoint remove_while_iterating (fuel i : nat) (select : record → bool)
    (records : list record) {struct fuel} : option (result (list record)) :=
  match list_find (λ r, select r = true) (drop i records) with
  | None => Some (Ok records)
  | Some (k, child) =>
      match fuel with
      | O => None
      | S fuel' =>
          match list_remove child records with
          | Ok records' =>
              remove_while_iterating fuel' (S (i + k)) select records'
          | Raise e => Some (Raise e)
          end
      end
  end.

(** One turn of the loop of [tree_ize] after the pop: the children that
    go to the recursive call, and the pool that is left.  The recursive
    call makes its list from [children] when the loop is over: from the
    pool as it then is, or from a generator that has nothing left to
    give. *)
Definition find_and_remove (find_children : record → list record → found)
    (parent : record) (records : list record)
  : option (result (list record * list record)) :=
  match find_children parent records with
  | Fresh children =>
      match remove_each children records with
      | Ok records' => Some (Ok (children, records'))
      | Raise e => Some (Raise e)
      end
  | Pool =>
      match remove_while_iterating (length records) 0 (λ _, true) records with
      | Some (Ok records') => Some (Ok (records', records'))
      | Some (Raise e) => Some (Raise e)
      | None => None
      end
  | Lazy select =>
      match remove_while_iterating (length records) 0 select records with
      | Some (Ok records') => Some (Ok ([], records'))
      | Some (Raise e) => Some (Raise e)
      | None => None
      end
  end.

(** [tree_ize(records, find_children)] for such a policy.  The recursive
    call copies the children and uses the default policy, so it is
    [tree_ize_fuel] with [get_matching_prfx]. *)
Fixpoint tree_ize_policy_fuel (fuel : nat)
    (find_children : record → list record → found)
    (records : list record) : option (result (list node)) :=
  match fuel with
  | O => None
  | S fuel' =>
      match records with
      | [] => Some (Ok [])
      | parent :: records =>
          match find_and_remove find_children parent records with
          | None => None
          | Some (Raise e) => Some (Raise e)
          | Some (Ok (children, records)) =>
              match tree_ize_fuel fuel' get_matching_prfx children with
              | None => None
              | Some (Raise e) => Some (Raise e)
              | Some (Ok subtree) =>
                  match tree_ize_policy_fuel fuel' find_children records with
                  | None => None
                  | Some (Raise e) => Some (Raise e)
                  | Some (Ok nodes) => Some (Ok (Node parent subtree :: nodes))
                  end
              end
          end
      end
  end.

Definition tree_ize_policy (find_children : record → list record → found)
    (records : list record) : option (result (list node)) :=
  tree_ize_policy_fuel (S (length records)) find_children records.

(** The policy that returns the pool it is given:
    [lambda parent, records: records]. *)
Definition whole_pool (parent : record) (pool : list record) : found := Pool.

(** The default policy as a generator:
    [lambda parent, records: (r for r in records if r[0].startswith(parent[0]))]. *)
Definition lazy_prfx (parent : record) (pool : list record) : found :=
  Lazy (λ r, startswith r.1.1 parent.1.1).

(** * Properties *)

(** ** Lists: [list.remove] and the removal loop *)

Lemma list_remove_middle (x : record) (pre suf : list record) :
  x ∉ pre → list_remove x (pre ++ x :: suf) = Ok (pre ++ suf).
Proof.
  induction pre as [|y pre IH]; intros Hx; simpl.
  - by rewrite decide_True.
  - apply not_elem_of_cons in Hx as [Hne Hx].
    rewrite decide_False by done. by rewrite IH.
Qed.

Lemma list_remove_Ok (x : record) (l l' : list record) :
  list_remove x l = Ok l' → l ≡ₚ x :: l'.
Proof.
  revert l'. induction l as [|y l IH]; intros l'; simpl; [done|].
  destruct (decide (y = x)) as [->|Hne].
  - by intros [= ->].
  - destruct (list_remove x l) as [l''|e]; [|done].
    intros [= <-]. rewrite (IH l'' eq_refl). apply Permutation_swap.
Qed.

Lemma list_remove_elem_of (x : record) (l : list record) :
  x ∈ l → ∃ l', list_remove x l = Ok l'.
Proof.
  induction l as [|y l IH]; [by intros ?%elem_of_nil|].
  intros Hx. simpl. destruct (decide (y = x)) as [->|Hne]; [by eexists|].
  apply elem_of_cons in Hx as [->|Hx]; [done|].
  destruct (IH Hx) as [l' ->]. by eexists.
Qed.

Lemma remove_each_Ok (children records records' : list record) :
  remove_each children records = Ok records' →
  records ≡ₚ children ++ records'.
Proof.
  revert records. induction children as [|c children IH]; intros records; simpl.
  - by intros [= ->].
  - destruct (list_remove c records) as [l|e] eqn:Hrm; [|done].
    intros Hrest. rewrite (list_remove_Ok _ _ _ Hrm).
    by rewrite (IH _ Hrest).
Qed.

Lemma remove_each_length (children records records' : list record) :
  remove_each children records = Ok records' →
  length records = length children + length records'.
Proof.
  intros H%remove_each_Ok. by rewrite H, length_app.
Qed.

Lemma remove_each_submseteq (children records : list record) :
  children ⊆+ records → ∃ records', remove_each children records = Ok records'.
Proof.
  revert records. induction children as [|c children IH]; intros records Hsub.
  - by eexists.
  - simpl. destruct (list_remove_elem_of c records) as [l Hl].
    { eapply elem_of_submseteq; [|done]. by left. }
    rewrite Hl. apply IH.
    apply list_remove_Ok in Hl. rewrite Hl in Hsub.
    by apply submseteq_app_inv_l with [c].
Qed.

(** Removing the records that pass a test, one by one, leaves those that
    fail it, in place. *)
Lemma remove_each_filter (P : record → Prop) `{!∀ r, Decision (P r)}
    (pre l : list record) :
  Forall (λ r, ¬ P r) pre →
  remove_each (filter P l) (pre ++ l) = Ok (pre ++ filter (λ r, ¬ P r) l).
Proof.
  revert pre. induction l as [|y l IH]; intros pre Hpre; [done|].
  destruct (decide (P y)) as [Hy|Hy].
  - rewrite filter_cons_True by done.
    rewrite (filter_cons_False (λ r, ¬ P r)) by tauto. simpl.
    rewrite list_remove_middle; [by apply IH|].
    intros Hin. rewrite list.Forall_forall in Hpre. by apply (Hpre y Hin).
  - rewrite filter_cons_False by done.
    rewrite (filter_cons_True (λ r, ¬ P r)) by done.
    rewrite (cons_middle y pre l), (cons_middle y pre), !(assoc_L (++)).
    apply IH. apply Forall_app; split; [done|]. by constructor.
Qed.

(** ** The tree builder under the default policy *)

Lemma get_matching_prfx_filter (parent : record) (records : list record) :
  get_matching_prfx parent records
  = filter (λ r : record, startswith r.1.1 parent.1.1) records.
Proof.
  destruct parent as [[num title] page]. unfold get_matching_prfx.
  apply list_filter_iff. by intros [[n t] p].
Qed.

Lemma get_matching_prfx_sublist (parent : record) (records : list record) :
  get_matching_prfx parent records `sublist_of` records.
Proof. rewrite get_matching_prfx_filter. apply sublist_filter. Qed.

Lemma remove_each_get_matching_prfx (parent : record) (rest : list record) :
  remove_each (get_matching_prfx parent rest) rest
  = Ok (filter (λ r : record, ¬ startswith r.1.1 parent.1.1) rest).
Proof.
  rewrite get_matching_prfx_filter.
  by apply (remove_each_filter _ [] rest).
Qed.

(** With more fuel than records the builder returns the tree of the
    graph. *)
Lemma tree_ize_fuel_default (fuel : nat) (records : list record) :
  length records < fuel →
  ∃ tree, tree_ize_fuel fuel get_matching_prfx records = Some (Ok tree)
          ∧ tree_ize_graph records tree.
Proof.
  revert records. induction fuel as [|fuel IH]; intros records Hlen; [lia|].
  destruct records as [|parent rest]; simpl.
  { eexists; split; [done|constructor]. }
  rewrite remove_each_get_matching_prfx. simpl in Hlen.
  destruct (IH (get_matching_prfx parent rest)) as (subtree & -> & Hsub).
  { pose proof (sublist_length _ _ (get_matching_prfx_sublist parent rest)). lia. }
  destruct (IH (filter (λ r : record, ¬ startswith r.1.1 parent.1.1) rest))
    as (nodes & -> & Hnodes).
  { pose proof (length_filter (λ r : record, ¬ startswith r.1.1 parent.1.1) rest).
    lia. }
  eexists; split; [done|]. by constructor.
Qed.

Lemma tree_ize_default (records : list record) :
  ∃ tree, tree_ize get_matching_prfx records = Some (Ok tree)
          ∧ tree_ize_graph records tree.
Proof. apply tree_ize_fuel_default. lia. Qed.

Lemma flatten_cons (data : record) (children tree : list node) :
  flatten (Node data children :: tree)
  = data :: flatten children ++ flatten tree.
Proof. done. Qed.

Lemma tree_ize_graph_flatten (records : list record) (tree : list node) :
  tree_ize_graph records tree → flatten tree ≡ₚ records.
Proof.
  induction 1 as [|parent rest subtree nodes _ IHsub _ IHnodes]; [done|].
  rewrite flatten_cons, IHsub, IHnodes, get_matching_prfx_filter.
  constructor. apply filter_app_complement.
Qed.

(** C1. For every list of records, the tree that [tree_ize] builds with
    the default prefix policy, flattened depth-first in pre-order, is a
    permutation of the input: the same records with the same
    multiplicities, none lost and none duplicated. *)
Theorem tree_ize_flatten_permutation (records : list record) :
  ∃ tree, tree_ize get_matching_prfx records = Some (Ok tree)
          ∧ flatten tree ≡ₚ records.
Proof.
  destruct (tree_ize_default records) as (tree & Htree & Hgraph).
  exists tree. split; [done|]. by apply tree_ize_graph_flatten.
Qed.

(** ** Parents, children and their order *)

Lemma edges_cons (data : record) (children tree : list node) :
  edges (Node data children :: tree)
  = ((λ c, (data, node_data c)) <$> children) ++ edges children ++ edges tree.
Proof. unfold edges. simpl. by rewrite (assoc_L (++)). Qed.

Lemma groups_cons (data : record) (children tree : list node) :
  groups (Node data children :: tree)
  = (data :: (node_data <$> tree))
    :: groups children ++ (tree ≫= groups_node).
Proof. done. Qed.

Lemma tree_ize_graph_top (records : list record) (tree : list node) :
  tree_ize_graph records tree → node_data <$> tree `sublist_of` records.
Proof.
  induction 1 as [|parent rest subtree nodes _ _ _ IHnodes]; [done|].
  simpl. apply sublist_skip. etrans; [apply IHnodes|]. apply sublist_filter.
Qed.

Lemma tree_ize_graph_edges (records : list record) (tree : list node) :
  tree_ize_graph records tree →
  ∀ p c, (p, c) ∈ edges tree → startswith c.1.1 p.1.1 = true.
Proof.
  induction 1 as [|parent rest subtree nodes Hsub IHsub _ IHnodes];
    intros p c Hin.
  { by apply elem_of_nil in Hin. }
  rewrite edges_cons, !elem_of_app in Hin.
  destruct Hin as [Hin|[Hin|Hin]]; [|by eauto..].
  apply list_elem_of_fmap in Hin as (n & [= -> ->] & Hn).
  assert (node_data n ∈ get_matching_prfx parent rest) as Hc.
  { eapply sublist_subseteq; [by apply tree_ize_graph_top|].
    apply list_elem_of_fmap. by exists n. }
  rewrite get_matching_prfx_filter in Hc.
  apply list_elem_of_filter in Hc as [Hc _]. by apply Is_true_true.
Qed.

Lemma tree_ize_graph_groups (records : list record) (tree : list node) :
  tree_ize_graph records tree →
  Forall (λ g, g `sublist_of` records) (groups tree).
Proof.
  induction 1 as [|parent rest subtree nodes Hsub IHsub Hnodes IHnodes].
  { by repeat constructor. }
  rewrite groups_cons. constructor; [|apply Forall_app; split].
  - apply sublist_skip. etrans; [by apply tree_ize_graph_top|].
    apply sublist_filter.
  - eapply Forall_impl; [|exact IHsub]. intros g Hg. simpl in Hg.
    apply sublist_cons. etrans; [exact Hg|]. apply get_matching_prfx_sublist.
  - apply Forall_inv_tail in IHnodes.
    eapply Forall_impl; [|exact IHnodes]. intros g Hg. simpl in Hg.
    apply sublist_cons. etrans; [exact Hg|]. apply sublist_filter.
Qed.

(** When no two records have the same chapter number, no child has the
    chapter number of its parent. *)
Lemma tree_ize_graph_edges_differ (records : list record) (tree : list node) :
  tree_ize_graph records tree →
  NoDup ((λ r : record, r.1.1) <$> records) →
  ∀ p c, (p, c) ∈ edges tree → p.1.1 ≠ c.1.1.
Proof.
  induction 1 as [|parent rest subtree nodes Hsub IHsub _ IHnodes];
    intros Hnd p c Hin.
  { by apply elem_of_nil in Hin. }
  rewrite fmap_cons in Hnd. apply list.NoDup_cons in Hnd as [Hparent Hnd].
  rewrite edges_cons, !elem_of_app in Hin.
  destruct Hin as [Hin|[Hin|Hin]].
  - apply list_elem_of_fmap in Hin as (n & [= -> ->] & Hn).
    intros Heq. apply Hparent. rewrite Heq.
    apply list_elem_of_fmap. exists (node_data n). split; [done|].
    eapply sublist_subseteq; [apply get_matching_prfx_sublist|].
    eapply sublist_subseteq; [by apply tree_ize_graph_top|].
    apply list_elem_of_fmap. by exists n.
  - apply IHsub; [|done].
    eapply sublist_NoDup; [exact Hnd|].
    apply fmap_sublist, get_matching_prfx_sublist.
  - apply IHnodes; [|done].
    eapply sublist_NoDup; [exact Hnd|].
    apply fmap_sublist, sublist_filter.
Qed.

(** The claim C7 as it is written fails: the two records below have the
    same chapter number, the policy selects the second as a child of the
    first, and a string is no proper prefix of itself. *)
Lemma tree_ize_child_prefix_not_proper :
  tree_ize get_matching_prfx
    [("1", "Intro", PInt 2); ("1", "Again", PInt 3)]
  = Some (Ok [Node ("1", "Intro", PInt 2) [Node ("1", "Again", PInt 3) []]])
  ∧ ¬ (∀ records tree,
         tree_ize get_matching_prfx records = Some (Ok tree) →
         ∀ p c, (p, c) ∈ edges tree → proper_prefix p.1.1 c.1.1).
Proof.
  split; [reflexivity|]. intros H.
  destruct (H [("1", "Intro", PInt 2); ("1", "Again", PInt 3)]
              [Node ("1", "Intro", PInt 2) [Node ("1", "Again", PInt 3) []]]
              eq_refl
              ("1", "Intro", PInt 2) ("1", "Again", PInt 3)) as [_ Hne].
  - by left.
  - by apply Hne.
Qed.

(** C7, amended. For every list of records [tree_ize] with the default
    prefix policy returns a tree in which
    - every child's chapter number starts with its parent's chapter
      number (the two may be equal);
    - when no two records of the input have the same chapter number, the
      parent's chapter number is a proper prefix of the child's, for
      every parent and child;
    - the top-level records, and the children of every node, are in the
      order they have in the input. *)
Theorem tree_ize_child_prefix_and_order (records : list record) :
  ∃ tree, tree_ize get_matching_prfx records = Some (Ok tree)
    ∧ (∀ p c, (p, c) ∈ edges tree → startswith c.1.1 p.1.1 = true)
    ∧ (NoDup ((λ r : record, r.1.1) <$> records) →
       ∀ p c, (p, c) ∈ edges tree → proper_prefix p.1.1 c.1.1)
    ∧ (∀ g, g ∈ groups tree → g `sublist_of` records).
Proof.
  destruct (tree_ize_default records) as (tree & Htree & Hgraph).
  exists tree. split; [done|]. split; [|split].
  - by apply (tree_ize_graph_edges records).
  - intros Hnd p c Hin. split.
    + by apply (tree_ize_graph_edges records tree).
    + by apply (tree_ize_graph_edges_differ records tree).
  - apply list.Forall_forall. by apply tree_ize_graph_groups.
Qed.

(** The second part of C7 at work: the chapter numbers of the three
    records differ, and each child gets a proper prefix. *)
Example tree_ize_proper_prefix_example :
  let records :=
    [("1.", "Intro", PInt 2); ("1.1", "Background", PInt 3);
     ("1.1.1", "Details", PInt 4)] in
  NoDup ((λ r : record, r.1.1) <$> records)
  ∧ ∃ tree, tree_ize get_matching_prfx records = Some (Ok tree)
      ∧ edges tree
        = [(("1.", "Intro", PInt 2), ("1.1", "Background", PInt 3));
           (("1.1", "Background", PInt 3), ("1.1.1", "Details", PInt 4))]
      ∧ Forall (λ e : record * record, proper_prefix e.1.1.1 e.2.1.1)
          (edges tree).
Proof.
  split; [by apply (bool_decide_unpack _)|].
  eexists. split; [reflexivity|]. split; [reflexivity|].
  repeat constructor; done.
Qed.

(** ** Termination of the tree builder, for any [find_children] *)

(** Induction on a node with the hypothesis for all of its children. *)
Lemma node_forall_ind (P : node → Prop) :
  (∀ data children, Forall P children → P (Node data children)) →
  ∀ n, P n.
Proof.
  intros step. fix IH 1. intros [data children]. apply step.
  revert children. fix IHchildren 1. intros [|c children].
  - constructor.
  - constructor; [apply IH|apply IHchildren].
Qed.

Lemma deep_len_cons (data : record) (children tree : list node) :
  deep_len (Node data children :: tree)
  = 1 + deep_len children + deep_len tree.
Proof. done. Qed.

Lemma flatten_length (tree : list node) : length (flatten tree) = deep_len tree.
Proof.
  induction tree as [|n tree IH]; [done|]. revert tree IH.
  induction n as [data children IHc] using node_forall_ind. intros tree IH.
  rewrite flatten_cons, deep_len_cons. simpl. rewrite length_app, IH.
  f_equal. f_equal. clear IH tree.
  induction IHc as [|c children Hc _ IH]; [done|].
  exact (Hc children IH).
Qed.

(** More fuel does not change a result. *)
Lemma tree_ize_fuel_mono (fuel fuel' : nat)
    (find_children : record → list record → list record)
    (records : list record) (r : result (list node)) :
  tree_ize_fuel fuel find_children records = Some r →
  fuel ≤ fuel' →
  tree_ize_fuel fuel' find_children records = Some r.
Proof.
  revert fuel' find_children records r.
  induction fuel as [|fuel IH]; intros fuel' fc records r; [done|].
  intros Hrun Hle. destruct fuel' as [|fuel']; [lia|].
  simpl in *. destruct records as [|parent rest]; [done|].
  destruct (remove_each (fc parent rest) rest) as [rest'|e]; [|done].
  destruct (tree_ize_fuel fuel get_matching_prfx (fc parent rest))
    as [r1|] eqn:H1; [|done].
  rewrite (IH fuel' _ _ _ H1) by lia.
  destruct r1 as [subtree|e]; [|done].
  destruct (tree_ize_fuel fuel fc rest') as [r2|] eqn:H2; [|done].
  by rewrite (IH fuel' _ _ _ H2) by lia.
Qed.

(** Whatever [find_children] is, a tree that the builder returns holds
    exactly the records of the input. *)
Lemma tree_ize_fuel_flatten (fuel : nat)
    (find_children : record → list record → list record)
    (records : list record) (tree : list node) :
  tree_ize_fuel fuel find_children records = Some (Ok tree) →
  flatten tree ≡ₚ records.
Proof.
  revert find_children records tree.
  induction fuel as [|fuel IH]; intros fc records tree; [done|]. simpl.
  destruct records as [|parent rest]; [by intros [= <-]|].
  destruct (remove_each (fc parent rest) rest) as [rest'|e] eqn:Hrm; [|done].
  destruct (tree_ize_fuel fuel get_matching_prfx (fc parent rest))
    as [[subtree|e]|] eqn:H1; [|done..].
  destruct (tree_ize_fuel fuel fc rest') as [[nodes|e]|] eqn:H2; [|done..].
  intros [= <-]. rewrite flatten_cons, (IH _ _ _ H1), (IH _ _ _ H2).
  constructor. symmetry. by apply remove_each_Ok.
Qed.

(** With more fuel than records the builder ends: it returns a tree or
    raises, whatever [find_children] is. *)
Lemma tree_ize_fuel_ends (fuel : nat)
    (find_children : record → list record → list record)
    (records : list record) :
  length records < fuel →
  ∃ r, tree_ize_fuel fuel find_children records = Some r.
Proof.
  revert find_children records.
  induction fuel as [|fuel IH]; intros fc records Hlen; [lia|]. simpl.
  destruct records as [|parent rest]; [by eexists|]. simpl in Hlen.
  destruct (remove_each (fc parent rest) rest) as [rest'|e] eqn:Hrm;
    [|by eexists].
  apply remove_each_length in Hrm.
  destruct (IH get_matching_prfx (fc parent rest)) as [[subtree|e] ->];
    [lia| |by eexists].
  destruct (IH fc rest') as [[nodes|e] ->]; [lia|by eexists..].
Qed.

Lemma tree_ize_fuel_submseteq (fuel : nat)
    (find_children : record → list record → list record)
    (records : list record) :
  (∀ parent pool, find_children parent pool ⊆+ pool) →
  length records < fuel →
  ∃ tree, tree_ize_fuel fuel find_children records = Some (Ok tree).
Proof.
  intros Hfc. revert records.
  induction fuel as [|fuel IH]; intros records Hlen; [lia|]. simpl.
  destruct records as [|parent rest]; [by eexists|]. simpl in Hlen.
  destruct (remove_each_submseteq _ _ (Hfc parent rest)) as [rest' Hrm].
  rewrite Hrm. apply remove_each_length in Hrm.
  destruct (tree_ize_fuel_default fuel (find_children parent rest))
    as (subtree & -> & _); [lia|].
  destruct (IH rest') as [nodes ->]; [lia|]. by eexists.
Qed.

(** *** A policy that may return the pool *)

Lemma list_remove_length (x : record) (l l' : list record) :
  list_remove x l = Ok l' → length l = S (length l').
Proof. intros H%list_remove_Ok. by rewrite H. Qed.

(** Removing from the list that the loop runs over ends, without an
    exception and with a list that is not longer: what the loop removes
    is in the list. *)
Lemma remove_while_iterating_ends (fuel i : nat) (select : record → bool)
    (records : list record) :
  length records ≤ fuel + i →
  ∃ records', remove_while_iterating fuel i select records = Some (Ok records')
              ∧ length records' ≤ length records.
Proof.
  revert i records. induction fuel as [|fuel IH]; intros i records Hlen.
  - simpl. rewrite drop_ge by lia. by exists records.
  - simpl.
    destruct (list_find _ (drop i records)) as [[k child]|] eqn:Hfind;
      [|by eexists].
    apply list_find_Some in Hfind as (Hk & _ & _).
    rewrite lookup_drop in Hk.
    destruct (list_remove_elem_of child records) as [records' Hrm].
    { by eapply list_elem_of_lookup_2. }
    rewrite Hrm. apply list_remove_length in Hrm.
    apply lookup_lt_Some in Hk.
    destruct (IH (S (i + k)) records') as (l & -> & Hl); [lia|].
    exists l. split; [done|lia].
Qed.

Lemma remove_while_iterating_mono (fuel fuel' i : nat)
    (select : record → bool)
    (records : list record) (r : result (list record)) :
  remove_while_iterating fuel i select records = Some r →
  fuel ≤ fuel' →
  remove_while_iterating fuel' i select records = Some r.
Proof.
  revert fuel' i records. induction fuel as [|fuel IH];
    intros fuel' i records Hrun Hle.
  - simpl in Hrun.
    destruct (list_find _ (drop i records)) as [[k child]|] eqn:Hfind;
      [done|].
    destruct fuel'; simpl; by rewrite Hfind.
  - destruct fuel' as [|fuel']; [lia|]. simpl in *.
    destruct (list_find _ (drop i records)) as [[k child]|]; [|done].
    destruct (list_remove child records); [|done]. apply IH; [done|lia].
Qed.

(** What one turn of the loop leaves, when it raises nothing: a pool and
    a list of children that are not longer than the pool was. *)
Lemma find_and_remove_length (find_children : record → list record → found)
    (parent : record) (pool children pool' : list record) :
  find_and_remove find_children parent pool = Some (Ok (children, pool')) →
  length pool' ≤ length pool ∧ length children ≤ length pool.
Proof.
  unfold find_and_remove.
  destruct (find_children parent pool) as [found| |select].
  - destruct (remove_each found pool) as [l|e] eqn:Hrm; [|done].
    intros [= <- <-]. apply remove_each_length in Hrm. lia.
  - destruct (remove_while_iterating_ends (length pool) 0 (λ _, true) pool)
      as (l & -> & Hl); [lia|].
    intros [= <- <-]. lia.
  - destruct (remove_while_iterating_ends (length pool) 0 select pool)
      as (l & -> & Hl); [lia|].
    intros [= <- <-]. simpl. lia.
Qed.

Lemma find_and_remove_ends (find_children : record → list record → found)
    (parent : record) (pool : list record) :
  ∃ r, find_and_remove find_children parent pool = Some r.
Proof.
  unfold find_and_remove.
  destruct (find_children parent pool) as [found| |select].
  - destruct (remove_each found pool); by eexists.
  - destruct (remove_while_iterating_ends (length pool) 0 (λ _, true) pool)
      as (l & -> & _); [lia|]. by eexists.
  - destruct (remove_while_iterating_ends (length pool) 0 select pool)
      as (l & -> & _); [lia|]. by eexists.
Qed.

Lemma find_and_remove_submseteq (find_children : record → list record → found)
    (parent : record) (pool : list record) :
  (∀ parent pool children,
     find_children parent pool = Fresh children → children ⊆+ pool) →
  ∃ children pool',
    find_and_remove find_children parent pool = Some (Ok (children, pool')).
Proof.
  intros Hfc. unfold find_and_remove.
  destruct (find_children parent pool) as [found| |select] eqn:Hfound.
  - destruct (remove_each_submseteq found pool) as [l ->]; [by eapply Hfc|].
    by eexists _, _.
  - destruct (remove_while_iterating_ends (length pool) 0 (λ _, true) pool)
      as (l & -> & _); [lia|]. by eexists _, _.
  - destruct (remove_while_iterating_ends (length pool) 0 select pool)
      as (l & -> & _); [lia|]. by eexists _, _.
Qed.

Lemma tree_ize_policy_fuel_mono (fuel fuel' : nat)
    (find_children : record → list record → found)
    (records : list record) (r : result (list node)) :
  tree_ize_policy_fuel fuel find_children records = Some r →
  fuel ≤ fuel' →
  tree_ize_policy_fuel fuel' find_children records = Some r.
Proof.
  revert fuel' records r.
  induction fuel as [|fuel IH]; intros fuel' records r; [done|].
  intros Hrun Hle. destruct fuel' as [|fuel']; [lia|].
  simpl in *. destruct records as [|parent rest]; [done|].
  destruct (find_and_remove find_children parent rest)
    as [[[children rest']|e]|]; [|done..].
  destruct (tree_ize_fuel fuel get_matching_prfx children)
    as [r1|] eqn:H1; [|done].
  rewrite (tree_ize_fuel_mono fuel fuel' _ _ _ H1) by lia.
  destruct r1 as [subtree|e]; [|done].
  destruct (tree_ize_policy_fuel fuel find_children rest')
    as [r2|] eqn:H2; [|done].
  by rewrite (IH fuel' _ _ H2) by lia.
Qed.

Lemma tree_ize_policy_fuel_ends (fuel : nat)
    (find_children : record → list record → found)
    (records : list record) :
  length records < fuel →
  ∃ r, tree_ize_policy_fuel fuel find_children records = Some r.
Proof.
  revert records.
  induction fuel as [|fuel IH]; intros records Hlen; [lia|]. simpl.
  destruct records as [|parent rest]; [by eexists|]. simpl in Hlen.
  destruct (find_and_remove_ends find_children parent rest) as [r Hr].
  rewrite Hr. destruct r as [[children rest']|e]; [|by eexists].
  apply find_and_remove_length in Hr as [Hrest Hchildren].
  destruct (tree_ize_fuel_ends fuel get_matching_prfx children)
    as [[subtree|e] ->]; [lia| |by eexists].
  destruct (IH rest') as [[nodes|e] ->]; [lia|by eexists..].
Qed.

Lemma tree_ize_policy_fuel_submseteq (fuel : nat)
    (find_children : record → list record → found)
    (records : list record) :
  (∀ parent pool children,
     find_children parent pool = Fresh children → children ⊆+ pool) →
  length records < fuel →
  ∃ tree, tree_ize_policy_fuel fuel find_children records = Some (Ok tree).
Proof.
  intros Hfc. revert records.
  induction fuel as [|fuel IH]; intros records Hlen; [lia|]. simpl.
  destruct records as [|parent rest]; [by eexists|]. simpl in Hlen.
  destruct (find_and_remove_submseteq _ parent rest Hfc)
    as (children & rest' & Hr).
  rewrite Hr. apply find_and_remove_length in Hr as [Hrest Hchildren].
  destruct (tree_ize_fuel_default fuel children) as (subtree & -> & _); [lia|].
  destruct (IH rest') as [nodes ->]; [lia|]. by eexists.
Qed.

(** For a policy that returns lists of its own the two models of the
    loop are one. *)
Lemma tree_ize_policy_fuel_fresh (fuel : nat)
    (find_children : record → list record → list record)
    (records : list record) :
  tree_ize_policy_fuel fuel (λ parent pool, Fresh (find_children parent pool))
    records
  = tree_ize_fuel fuel find_children records.
Proof.
  revert records. induction fuel as [|fuel IH]; intros records; [done|].
  simpl. destruct records as [|parent rest]; [done|].
  unfold find_and_remove.
  destruct (remove_each (find_children parent rest) rest) as [rest'|e];
    [|done].
  destruct (tree_ize_fuel fuel get_matching_prfx (find_children parent rest))
    as [[subtree|e]|]; [|done..].
  by rewrite IH.
Qed.

(** C10. Let [find_children] be a policy that returns the pool it is
    given, or a generator that selects from that pool, or a list of its
    own that is, with multiplicities, part of that pool.  Then on every
    list of records [tree_ize] ends and returns a tree, and it does so
    with any fuel above the number of records.  In each turn of the
    loop, for any policy, the pool that is left is shorter than the pool
    before the pop, and so is the list of children that the recursive
    call works on.  The loop ends under every policy, then with a tree
    or with the [ValueError] of [list.remove]. *)
Theorem tree_ize_terminates
    (find_children : record → list record → found)
    (records : list record) :
  (∀ parent pool children,
     find_children parent pool = Fresh children → children ⊆+ pool) →
  (∃ tree,
      tree_ize_policy find_children records = Some (Ok tree)
      ∧ ∀ fuel, length records < fuel →
          tree_ize_policy_fuel fuel find_children records = Some (Ok tree))
  ∧ (∀ any_children parent pool children pool',
       find_and_remove any_children parent pool = Some (Ok (children, pool')) →
       length pool' < length (parent :: pool)
       ∧ length children < length (parent :: pool))
  ∧ (∀ any_children parent pool,
       ∃ r, find_and_remove any_children parent pool = Some r)
  ∧ (∀ any_children, ∃ r, tree_ize_policy any_children records = Some r).
Proof.
  intros Hfc. split; [|split; [|split]].
  - destruct (tree_ize_policy_fuel_submseteq (S (length records)) _ records Hfc)
      as [tree Htree]; [lia|].
    exists tree. split; [done|].
    intros fuel Hlen. eapply tree_ize_policy_fuel_mono; [exact Htree|lia].
  - intros fc parent pool children pool' H%find_and_remove_length.
    simpl. lia.
  - intros fc parent pool. apply find_and_remove_ends.
  - intros fc. apply tree_ize_policy_fuel_ends. lia.
Qed.

Lemma tree_ize_terminates_witness :
  (∀ parent pool children,
     whole_pool parent pool = Fresh children → children ⊆+ pool)
  ∧ ∃ tree,
      tree_ize_policy whole_pool
        [("1", "a", PInt 1); ("2", "b", PInt 2); ("3", "c", PInt 3);
         ("4", "d", PInt 4); ("5", "e", PInt 5)] = Some (Ok tree)
      ∧ tree = [Node ("1", "a", PInt 1)
                  [Node ("3", "c", PInt 3) []; Node ("5", "e", PInt 5) []];
                Node ("3", "c", PInt 3) []].
Proof.
  assert (∀ parent pool children,
            whole_pool parent pool = Fresh children → children ⊆+ pool)
    as Hfc by done.
  split; [exact Hfc|].
  destruct (tree_ize_terminates whole_pool
              [("1", "a", PInt 1); ("2", "b", PInt 2); ("3", "c", PInt 3);
               ("4", "d", PInt 4); ("5", "e", PInt 5)] Hfc)
    as [(tree & Htree & _) _].
  exists tree. split; [exact Htree|].
  vm_compute in Htree. congruence.
Defined.

(** ** Decimal text: [str] of an integer and [int] of its text *)

Lemma pretty_N_char_digit (y : N) :
  (y < 10)%N →
  isdigit (pretty_N_char y) = true ∧ digit_val (pretty_N_char y) = Z.of_N y.
Proof.
  intros Hy.
  assert (y = 0 ∨ y = 1 ∨ y = 2 ∨ y = 3 ∨ y = 4 ∨ y = 5 ∨ y = 6 ∨ y = 7
          ∨ y = 8 ∨ y = 9)%N as Hcases by lia.
  repeat (destruct Hcases as [->|Hcases]; [done|]). by subst.
Qed.

Lemma pretty_N_go_digits (x : N) (s : string) :
  string_forall isdigit s = true →
  string_forall isdigit (pretty_N_go x s) = true.
Proof.
  revert s. induction (N.lt_wf_0 x) as [x _ IH]; intros s Hs.
  assert (x = 0 ∨ 0 < x)%N as [->|Hx] by lia; [done|].
  rewrite pretty_N_go_step by done. apply IH; [by apply N.div_lt|].
  simpl. rewrite Hs, andb_true_r.
  apply pretty_N_char_digit, N.mod_lt. lia.
Qed.

(** Reading the digits that [pretty_N_go] puts before [s]. *)
Lemma digits_value_pretty_N_go (x : N) :
  (0 < x)%N →
  ∃ k : Z, ∀ acc after_digit s,
    digits_value acc after_digit (pretty_N_go x s)
    = digits_value (acc * k + Z.of_N x)%Z true s.
Proof.
  induction (N.lt_wf_0 x) as [x _ IH]; intros Hx.
  destruct (pretty_N_char_digit (x `mod` 10)) as [Hdigit Hval].
  { apply N.mod_lt. lia. }
  assert (Z.of_N x = 10 * Z.of_N (x `div` 10) + Z.of_N (x `mod` 10))%Z as Hdm.
  { rewrite (N.div_mod x 10) at 1 by done. lia. }
  destruct (N.eq_0_gt_0_cases (x `div` 10)) as [Hdiv|Hdiv].
  - exists 10%Z. intros acc b s.
    rewrite pretty_N_go_step, Hdiv, pretty_N_go_0 by done. simpl.
    rewrite Hdigit, Hval. f_equal. rewrite Hdiv in Hdm. lia.
  - destruct (IH (x `div` 10)%N) as [k Hk]; [by apply N.div_lt|done|].
    exists (10 * k)%Z. intros acc b s.
    rewrite pretty_N_go_step, Hk by done. simpl.
    rewrite Hdigit, Hval. f_equal. lia.
Qed.

Lemma pretty_N_digits (x : N) :
  pretty x ≠ EmptyString ∧ string_forall isdigit (pretty x) = true.
Proof.
  unfold pretty, pretty_N. case_decide as Hx; [done|]. split.
  - rewrite pretty_N_go_step by lia. intros Heq.
    pose proof (f_equal String.length Heq) as Hlen. simpl in Hlen.
    assert (∀ y s, String.length s ≤ String.length (pretty_N_go y s)) as Hge.
    { intros y. induction (N.lt_wf_0 y) as [y _ IH]; intros s.
      assert (y = 0 ∨ 0 < y)%N as [->|?] by lia; [done|].
      rewrite pretty_N_go_step by done.
      etrans; [|by apply IH, N.div_lt]. simpl. lia. }
    specialize (Hge (x `div` 10)%N
                  (String (pretty_N_char (x `mod` 10)) EmptyString)).
    simpl in Hge. lia.
  - by apply pretty_N_go_digits.
Qed.

Lemma digits_value_pretty_N (x : N) :
  digits_value 0 false (pretty x) = Some (Z.of_N x).
Proof.
  unfold pretty, pretty_N. case_decide as Hx; [by subst|].
  destruct (digits_value_pretty_N_go x) as [k Hk]; [lia|].
  by rewrite Hk.
Qed.

Lemma isdigit_not_int_space (c : ascii) : isdigit c = true → int_space c = false.
Proof.
  unfold isdigit, int_space. intros [H1 H2]%andb_true_iff.
  apply N.leb_le in H1, H2.
  repeat (apply orb_false_iff; split);
    rewrite ?andb_false_iff, ?N.leb_gt, ?N.eqb_neq; lia.
Qed.

Lemma isdigit_not_blank (c : ascii) : isdigit c = true → c ≠ " "%char.
Proof. by intros Hc ->. Qed.

Lemma rstrip_digits (s : string) :
  string_forall isdigit s = true → rstrip s = s.
Proof.
  induction s as [|c s IH]; [done|]. simpl.
  intros [Hc Hs]%andb_true_iff. rewrite (IH Hs).
  destruct s; [|done]. by rewrite (isdigit_not_int_space c Hc).
Qed.

Lemma int_of_str_digits (s : string) :
  s ≠ EmptyString → string_forall isdigit s = true →
  int_of_str s = digits_value 0 false s.
Proof.
  intros Hne Hs. unfold int_of_str.
  destruct s as [|c s]; [done|]. simpl in Hs.
  apply andb_true_iff in Hs as [Hc Hs].
  assert (lstrip (String c s) = String c s) as ->.
  { simpl. by rewrite (isdigit_not_int_space c Hc). }
  rewrite rstrip_digits by (simpl; by rewrite Hc, Hs).
  assert (c ≠ "+"%char ∧ c ≠ "-"%char) as [Hplus Hminus].
  { split; by intros ->. }
  destruct c as [[] [] [] [] [] [] [] []]; done.
Qed.

Lemma int_of_str_minus_digits (s : string) :
  string_forall isdigit s = true →
  int_of_str (String "-" s) = Z.opp <$> digits_value 0 false s.
Proof.
  intros Hs. unfold int_of_str.
  assert (lstrip (String "-" s) = String "-" s) as -> by done.
  assert (rstrip (String "-" s) = String "-" s) as ->; [|done].
  simpl. rewrite (rstrip_digits s Hs). by destruct s.
Qed.

(** [int(str(z)) == z] *)
Lemma int_of_str_pretty (z : Z) : int_of_str (pretty z) = Some z.
Proof.
  destruct z as [|p|p]; [done|..].
  - change (pretty (Z.pos p)) with (pretty (N.pos p)).
    destruct (pretty_N_digits (N.pos p)) as [Hne Hdigits].
    by rewrite int_of_str_digits, digits_value_pretty_N.
  - change (pretty (Z.neg p)) with ("-" +:+ pretty (N.pos p)).
    destruct (pretty_N_digits (N.pos p)) as [Hne Hdigits].
    change ("-" +:+ pretty (N.pos p)) with (String "-" (pretty (N.pos p))).
    by rewrite int_of_str_minus_digits, digits_value_pretty_N.
Qed.

Lemma until_space_digits (s rest : string) :
  string_forall isdigit s = true →
  until_space (s +:+ String " " rest) = s.
Proof.
  induction s as [|c s IH]; [done|]. simpl.
  intros [Hc Hs]%andb_true_iff.
  rewrite bool_decide_eq_false_2 by by apply isdigit_not_blank.
  by rewrite (IH Hs).
Qed.

(** ** The bookmark emitter *)

Lemma pdfmark_node_directive (n : node) :
  pdfmark_node n = directive n :: pdfmark_toc (node_children n).
Proof.
  destruct n as [[[num title] page] children]. simpl.
  case_bool_decide as Hlen; [|done].
  by apply nil_length_inv in Hlen as ->.
Qed.

Lemma pdfmark_toc_cons (n : node) (tree : list node) :
  pdfmark_toc (n :: tree)
  = directive n :: pdfmark_toc (node_children n) ++ pdfmark_toc tree.
Proof.
  unfold pdfmark_toc at 1. simpl. by rewrite pdfmark_node_directive.
Qed.

Lemma pdfmark_toc_app (tree1 tree2 : list node) :
  pdfmark_toc (tree1 ++ tree2) = pdfmark_toc tree1 ++ pdfmark_toc tree2.
Proof. apply bind_app. Qed.

Lemma preorder_cons (n : node) (tree : list node) :
  preorder (n :: tree) = n :: preorder (node_children n) ++ preorder tree.
Proof. by destruct n. Qed.

Lemma pdfmark_toc_preorder (tree : list node) :
  pdfmark_toc tree = directive <$> preorder tree.
Proof.
  induction tree as [|n tree IH]; [done|]. revert tree IH.
  induction n as [data children IHc] using node_forall_ind. intros tree IH.
  rewrite pdfmark_toc_cons, preorder_cons, fmap_cons, fmap_app, IH. simpl.
  f_equal. f_equal. clear IH tree.
  induction IHc as [|c children Hc _ IH]; [done|].
  exact (Hc children IH).
Qed.

Lemma preorder_length (tree : list node) : length (preorder tree) = deep_len tree.
Proof.
  induction tree as [|n tree IH]; [done|]. revert tree IH.
  induction n as [data children IHc] using node_forall_ind. intros tree IH.
  rewrite preorder_cons, deep_len_cons. simpl. rewrite length_app, IH.
  f_equal. f_equal. clear IH tree.
  induction IHc as [|c children Hc _ IH]; [done|].
  exact (Hc children IH).
Qed.

Lemma count_field_leaf_line (num title : string) (page : pyval) :
  count_field (leaf_line num title page) = None.
Proof. done. Qed.

Lemma count_field_branch_line (count : nat) (num title : string) (page : pyval) :
  count_field (branch_line count num title page) = Some (- Z.of_nat count)%Z.
Proof.
  destruct (pretty_N_digits (N.of_nat count)) as [_ Hdigits].
  unfold count_field, branch_line. simpl.
  lazymatch goal with
  | |- context [until_space (_ +:+ _ +:+ " /Title (" +:+ ?rest)] =>
      change (until_space (_ +:+ _ +:+ " /Title (" +:+ rest))
        with (until_space
                (pretty (N.of_nat count) +:+ String " " ("/Title (" +:+ rest)))
  end.
  rewrite until_space_digits, int_of_str_minus_digits by done.
  rewrite digits_value_pretty_N. simpl. do 2 f_equal. lia.
Qed.

(** C3. For every tree, [pdfmark_toc] yields exactly one directive line
    per node, as many lines as [deep_len] counts nodes, in depth-first
    pre-order: the line of a node comes first, then the lines of all its
    descendants, then the lines of the siblings that follow it, and the
    lines of two adjacent runs of siblings follow each other in the order
    of the runs. *)
Theorem pdfmark_toc_preorder_lines (tree : list node) :
  pdfmark_toc tree = directive <$> preorder tree
  ∧ length (pdfmark_toc tree) = deep_len tree
  ∧ (∀ n rest,
       pdfmark_toc (n :: rest)
       = directive n :: pdfmark_toc (node_children n) ++ pdfmark_toc rest)
  ∧ (∀ tree1 tree2,
       pdfmark_toc (tree1 ++ tree2) = pdfmark_toc tree1 ++ pdfmark_toc tree2).
Proof.
  split; [apply pdfmark_toc_preorder|]. split.
  - by rewrite pdfmark_toc_preorder, length_fmap, preorder_length.
  - split; [apply pdfmark_toc_cons|apply pdfmark_toc_app].
Qed.

(** ** The chunk splitter *)

Lemma chunk_count_bounds {A} (l : list A) (n : Z) (k : nat) :
  (0 < n)%Z →
  (Z.of_nat (length l) ≤ Z.of_nat (chunk_count l n) * n)%Z
  ∧ (k < chunk_count l n → (Z.of_nat k * n < Z.of_nat (length l))%Z).
Proof.
  intros Hn. unfold chunk_count.
  set (len := Z.of_nat (length l)).
  assert (0 ≤ len)%Z as Hlen by lia.
  pose proof (Z.div_mod (len + n - 1) n ltac:(lia)) as Hdm.
  pose proof (Z.mod_pos_bound (len + n - 1) n Hn) as Hmod.
  assert (0 ≤ (len + n - 1) `div` n)%Z as Hq by (apply Z.div_pos; lia).
  revert Hdm Hmod Hq.
  generalize ((len + n - 1) `div` n)%Z ((len + n - 1) `mod` n)%Z.
  intros q r Hdm Hmod Hq. split; [nia|]. intros Hk. nia.
Qed.

Lemma py_slice_chunk {A} (l : list A) (n : Z) (i : nat) :
  (0 < n)%Z → i < length l →
  py_slice l (Z.of_nat i) (Z.of_nat i + n) = take (Z.to_nat n) (drop i l).
Proof.
  intros Hn Hi. unfold py_slice, slice_bound.
  rewrite !bool_decide_eq_false_2 by lia.
  rewrite (Z.min_l (Z.of_nat i)), Nat2Z.id by lia.
  destruct (decide (Z.of_nat i + n ≤ Z.of_nat (length l))%Z) as [Hle|Hgt].
  - rewrite Z.min_l by done. f_equal. lia.
  - rewrite Z.min_r by lia.
    rewrite !take_ge; [done|rewrite length_drop; lia..].
Qed.

(** What [splitfiles] returns for a positive chunk size. *)
Lemma splitfiles_pos {A} (l : list A) (n : Z) :
  (0 < n)%Z →
  splitfiles l n
  = Ok ((λ k : nat,
           ((Z.of_nat k * n)%Z, take (Z.to_nat n) (drop (k * Z.to_nat n) l)))
          <$> seq 0 (chunk_count l n)).
Proof.
  intros Hn. unfold splitfiles, py_range.
  rewrite bool_decide_eq_false_2, bool_decide_eq_true_2 by lia.
  rewrite Z.sub_0_r. fold (chunk_count l n).
  rewrite <-list_fmap_compose. f_equal.
  apply list_fmap_ext. intros j k Hk. simpl.
  apply lookup_seq in Hk as [Hk Hj]. simpl in Hk. subst j.
  destruct (chunk_count_bounds l n k Hn) as [_ Hlt]. specialize (Hlt Hj).
  replace (0 + Z.of_nat k * n)%Z with (Z.of_nat (k * Z.to_nat n)) by lia.
  rewrite py_slice_chunk by lia. f_equal. lia.
Qed.

Lemma concat_chunks {A} (l : list A) (m c : nat) :
  length l ≤ c * m →
  concat ((λ k, take m (drop (k * m) l)) <$> seq 0 c) = l.
Proof.
  revert l. induction c as [|c IH]; intros l Hlen.
  { simpl in *. symmetry. apply nil_length_inv. lia. }
  rewrite <-cons_seq, <-fmap_S_seq, fmap_cons, <-list_fmap_compose. simpl.
  rewrite drop_0. etrans; [|apply (take_drop m l)]. f_equal.
  etrans; [|apply (IH (drop m l)); rewrite length_drop; lia].
  f_equal. apply list_fmap_ext. intros j k _. simpl.
  by rewrite drop_drop.
Qed.

Lemma splitfiles_chunks {A} (l : list A) (n : Z) :
  (0 < n)%Z →
  ∃ chunks : list (Z * list A),
    splitfiles l n = Ok chunks
    ∧ concat (snd <$> chunks) = l
    ∧ ∀ (k : nat) (i : Z) (chunk : list A),
        chunks !! k = Some (i, chunk) →
        i = (Z.of_nat k * n)%Z
        ∧ (0 ≤ i < Z.of_nat (length l))%Z
        ∧ chunk = take (Z.to_nat n) (drop (Z.to_nat i) l)
        ∧ (0 < Z.of_nat (length chunk) ≤ n)%Z.
Proof.
  intros Hn. eexists. split; [by apply splitfiles_pos|]. split.
  - rewrite <-list_fmap_compose.
    apply (concat_chunks l (Z.to_nat n) (chunk_count l n)).
    destruct (chunk_count_bounds l n 0 Hn) as [Hge _]. nia.
  - intros k i chunk Hk.
    apply list_lookup_fmap_Some in Hk as (k' & [= -> ->] & Hk').
    apply lookup_seq in Hk' as [-> Hlt]. simpl in *.
    destruct (chunk_count_bounds l n k Hn) as [_ Hbound].
    specialize (Hbound Hlt).
    replace (Z.to_nat (Z.of_nat k * n)) with (k * Z.to_nat n) by lia.
    split; [done|]. split; [lia|]. split; [done|].
    rewrite length_take, length_drop. lia.
Qed.


(** With a chunk size, [wite_pdfmark_file] writes the lines of the tree
    chunk by chunk: the files, in the order they are written, hold the
    lines of [pdfmark_toc], and the file in position [k] is named by the
    output name followed by [k * n]. *)
Lemma wite_pdfmark_file_chunks (tree : list node) (outfile : string)
    (chunksize : pyval) (n : Z) :
  py_int chunksize = Ok n → (0 < n)%Z →
  ∃ files,
    wite_pdfmark_file tree (Some outfile) (Some chunksize) = Ok files
    ∧ concat (snd <$> files) = pdfmark_toc tree
    ∧ ∀ (k : nat) name chunk,
        files !! k = Some (name, chunk) →
        name = outfile +:+ pretty (Z.of_nat k * n)%Z.
Proof.
  intros Hint Hn. unfold wite_pdfmark_file. rewrite Hint.
  destruct (splitfiles_chunks (pdfmark_toc tree) n Hn)
    as (chunks & -> & Hcat & Htags).
  eexists. split; [done|]. split.
  - by rewrite <-list_fmap_compose.
  - intros k name chunk Hk.
    apply list_lookup_fmap_Some in Hk as ([i c] & [= -> ->] & Hk).
    by destruct (Htags k i c Hk) as [-> _].
Qed.

(** C5, amended. For every positive chunk size [n] and every list of
    lines [l], [splitfiles l n] returns chunks whose concatenation, in
    the order they come, is [l]; each chunk is not empty and has at
    most [n] lines, the chunk in position [k] is tagged [k * n], and
    it is the run of [l] that starts at the index it is tagged with. *)
Theorem splitfiles_partition {A} (l : list A) (n : Z) :
  (0 < n)%Z →
  ∃ chunks : list (Z * list A),
    splitfiles l n = Ok chunks
    ∧ concat (snd <$> chunks) = l
    ∧ ∀ (k : nat) (i : Z) (chunk : list A),
        chunks !! k = Some (i, chunk) →
        i = (Z.of_nat k * n)%Z
        ∧ (0 ≤ i < Z.of_nat (length l))%Z
        ∧ chunk = take (Z.to_nat n) (drop (Z.to_nat i) l)
        ∧ (0 < Z.of_nat (length chunk) ≤ n)%Z.
Proof. apply splitfiles_chunks. Qed.

(** The claim C5 as it is written fails at the chunk size 0, which is
    not negative: [range(0, len(l), 0)] raises [ValueError] and no chunk
    is produced. *)
Lemma splitfiles_zero_raises :
  splitfiles ["a"; "b"; "c"] 0 = Raise ValueError
  ∧ ¬ (∀ (l : list string) (n : Z), (0 ≤ n)%Z →
         ∃ chunks, splitfiles l n = Ok chunks ∧ concat (snd <$> chunks) = l).
Proof.
  split; [done|]. intros H.
  by destruct (H ["a"; "b"; "c"] 0%Z ltac:(done)) as (chunks & [=] & _).
Qed.

Lemma splitfiles_partition_witness :
  (0 < 2)%Z
  ∧ ∃ chunks : list (Z * list string),
      splitfiles ["a"; "b"; "c"; "d"; "e"] 2 = Ok chunks
      ∧ concat (snd <$> chunks) = ["a"; "b"; "c"; "d"; "e"].
Proof.
  split; [lia|].
  destruct (splitfiles_partition ["a"; "b"; "c"; "d"; "e"] 2 ltac:(lia))
    as (chunks & Hrun & Hcat & _).
  exists chunks. split; [exact Hrun|exact Hcat].
Defined.

(** ** The tokenizer *)

Lemma tok_loop_app (st : tok_state) (lines1 lines2 : list string) :
  tok_loop st (lines1 ++ lines2)
  = tok_loop st lines1 ++ tok_loop (tok_state_after st lines1) lines2.
Proof.
  revert st. induction lines1 as [|line lines1 IH]; intros st; [done|].
  simpl. destruct (tok_line st line) as [st' ev] eqn:Hline. simpl.
  by rewrite IH.
Qed.

Lemma tok_loop_cons (st : tok_state) (line : string) (lines : list string) :
  tok_loop st (line :: lines)
  = (tok_line st line).2 :: tok_loop (tok_line st line).1 lines.
Proof. simpl. by destruct (tok_line st line). Qed.

(** The three ways a line can go. *)
Lemma tok_line_primary (st : tok_state) (line num title page : string) :
  primary line = Some (num, title, page) →
  tok_line st line = ((num, 1%Z), Yield (num, title, PStr page)).
Proof.
  unfold primary, tok_line. destruct st as [prev_num cnt].
  destruct (re_match reg line) as [[|? [|? [|? [|]]]]|]; try done.
  by intros [= -> -> ->].
Qed.

Lemma tok_line_fallback (prev_num : string) (cnt : Z) (line title page : string) :
  primary line = None → fallback line = Some (title, page) →
  tok_line (prev_num, cnt) line
  = ((prev_num, (cnt + 1)%Z),
     Yield (prev_num +:+ "." +:+ pretty cnt, title, PStr page)).
Proof.
  unfold primary, fallback, tok_line.
  destruct (re_match reg line) as [[|? [|? [|? [|]]]]|]; try done;
    destruct (re_match alt line) as [[|? [|? [|]]]|]; try done;
    by intros _ [= -> ->].
Qed.

Lemma tok_line_skip (st : tok_state) (line : string) :
  primary line = None → fallback line = None →
  tok_line st line = (st, Print ("Skipping toc line: " +:+ line)).
Proof.
  unfold primary, fallback, tok_line. destruct st as [prev_num cnt].
  destruct (re_match reg line) as [[|? [|? [|? [|]]]]|]; try done;
    destruct (re_match alt line) as [[|? [|? [|]]]|]; done.
Qed.

(** The loop's variables are the previous chapter number and the running
    subcounter of the lines read. *)
Lemma tok_state_after_history (lines : list string) :
  tok_state_after tok_init lines
  = (previous_chapter_number (reverse lines),
     running_subcounter (reverse lines)).
Proof.
  induction lines as [|line lines IH] using rev_ind; [done|].
  unfold tok_state_after in *. rewrite foldl_snoc, IH, reverse_snoc.
  destruct (primary line) as [[[num title] page]|] eqn:Hprimary.
  { rewrite (tok_line_primary _ _ _ _ _ Hprimary). simpl.
    by rewrite Hprimary. }
  destruct (fallback line) as [[title page]|] eqn:Hfallback.
  - rewrite (tok_line_fallback _ _ _ _ _ Hprimary Hfallback). simpl.
    by rewrite Hprimary, Hfallback.
  - rewrite (tok_line_skip _ _ Hprimary Hfallback). simpl.
    by rewrite Hprimary, Hfallback.
Qed.

(** C6. A line that fails the primary pattern and matches the fallback
    pattern with [(title, page)] makes [tokenize] yield, in its place in
    the output, the record whose chapter number is the previous chapter
    number, a dot and the running subcounter; the subcounter is 1 after
    a line the primary pattern accepts and one more after a line only
    the fallback accepts.  A line that matches neither pattern yields no
    record, only the diagnostic, and the lines after it are processed as
    if it had not been there. *)
Theorem tokenize_fallback_number (seen rest : list string) (line : string) :
  primary line = None →
  (∀ title page, fallback line = Some (title, page) →
     tok_loop tok_init (seen ++ line :: rest)
     = tok_loop tok_init seen
       ++ Yield (previous_chapter_number (reverse seen) +:+ "."
                   +:+ pretty (running_subcounter (reverse seen)),
                 title, PStr page)
       :: tok_loop (previous_chapter_number (reverse seen),
                    (running_subcounter (reverse seen) + 1)%Z) rest)
  ∧ (fallback line = None →
     tok_loop tok_init (seen ++ line :: rest)
     = tok_loop tok_init seen
       ++ Print ("Skipping toc line: " +:+ line)
       :: tok_loop (tok_state_after tok_init seen) rest
     ∧ tokenize (seen ++ line :: rest) = tokenize (seen ++ rest))
  ∧ (∀ next num title page, primary next = Some (num, title, page) →
       running_subcounter (next :: line :: reverse seen) = 1%Z)
  ∧ (∀ title page, fallback line = Some (title, page) →
       running_subcounter (line :: reverse seen)
       = (running_subcounter (reverse seen) + 1)%Z).
Proof.
  intros Hprimary. split; [|split; [|split]].
  - intros title page Hfallback.
    rewrite tok_loop_app, tok_state_after_history, tok_loop_cons.
    by rewrite (tok_line_fallback _ _ _ _ _ Hprimary Hfallback).
  - intros Hfallback. unfold tokenize.
    rewrite (tok_loop_app _ seen (line :: rest)), (tok_loop_app _ seen rest).
    rewrite tok_loop_cons.
    rewrite (tok_line_skip _ _ Hprimary Hfallback). split; [done|].
    unfold yielded. by rewrite !omap_app.
  - intros next num title page Hnext. simpl. by rewrite Hnext.
  - intros title page Hfallback. simpl. by rewrite Hprimary, Hfallback.
Qed.

Lemma tokenize_fallback_number_witness :
  primary ("Chapter one 3" +:+ newline) = None
  ∧ tok_loop tok_init
      ["1. Intro 2" +:+ newline; "Chapter one 3" +:+ newline;
       "Chapter two 4" +:+ newline]
    = [Yield ("1.", "Intro", PStr "2"); Yield ("1..1", "Chapter one", PStr "3");
       Yield ("1..2", "Chapter two", PStr "4")].
Proof.
  assert (primary ("Chapter one 3" +:+ newline) = None) as Hp by reflexivity.
  split; [exact Hp|].
  destruct (tokenize_fallback_number ["1. Intro 2" +:+ newline]
              ["Chapter two 4" +:+ newline] _ Hp) as [Hfallback _].
  etrans; [exact (Hfallback "Chapter one" "3" eq_refl)|reflexivity].
Defined.

(** ** What the two patterns capture *)

Lemma elem_of_star_runs (p : ascii → bool) (s a rest : string) :
  (a, rest) ∈ star_runs p s → string_forall p a = true ∧ s = a +:+ rest.
Proof.
  revert a rest. induction s as [|c s IH]; intros a rest; simpl.
  { by intros [= -> ->]%list_elem_of_singleton. }
  intros [Hin|Hin]%elem_of_app.
  - destruct (p c) eqn:Hc; [|by apply elem_of_nil in Hin].
    apply list_elem_of_fmap in Hin as ([a' rest'] & [= -> ->] & Hin).
    destruct (IH _ _ Hin) as [Ha ->]. simpl. by rewrite Hc, Ha.
  - by apply list_elem_of_singleton in Hin as [= -> ->].
Qed.

Lemma elem_of_run_Seq (r1 r2 : regex) (s : string) (m : rmatch) :
  m ∈ run (Seq r1 r2) s ↔
  ∃ m1 m2, m1 ∈ run r1 s ∧ m2 ∈ run r2 m1.2
           ∧ m = (m1.1.1 ++ m2.1.1, m1.1.2 +:+ m2.1.2, m2.2).
Proof.
  simpl. rewrite list_elem_of_bind. split.
  - intros (m1 & Hm & Hm1). apply list_elem_of_bind in Hm as (m2 & Hm & Hm2).
    apply list_elem_of_singleton in Hm. by exists m1, m2.
  - intros (m1 & m2 & Hm1 & Hm2 & ->). exists m1. split; [|done].
    apply list_elem_of_bind. exists m2. split; [|done].
    by apply list_elem_of_singleton.
Qed.

Lemma elem_of_run_Group (r : regex) (s : string) (m : rmatch) :
  m ∈ run (Group r) s ↔
  ∃ m', m' ∈ run r s ∧ m = (m'.1.2 :: m'.1.1, m'.1.2, m'.2).
Proof.
  simpl. rewrite list_elem_of_fmap. split.
  - intros (m' & -> & Hm'). by exists m'.
  - intros (m' & Hm' & ->). by exists m'.
Qed.

Lemma elem_of_run_Plus (p : ascii → bool) (s : string) (m : rmatch) :
  m ∈ run (Plus p) s →
  m.1.1 = [] ∧ m.1.2 ≠ EmptyString ∧ string_forall p m.1.2 = true.
Proof.
  simpl. destruct s as [|c s]; [by intros ?%elem_of_nil|].
  destruct (p c) eqn:Hc; [|by intros ?%elem_of_nil].
  intros ([a rest] & -> & Hin)%list_elem_of_fmap. simpl.
  apply elem_of_star_runs in Hin as [Ha _]. by rewrite Hc, Ha.
Qed.

Lemma run_group_free (r : regex) (s : string) (m : rmatch) :
  group_free r = true → m ∈ run r s → m.1.1 = [].
Proof.
  revert s m. induction r as [p|r1 IH1 r2 IH2|r IH|p|p|r IH|]; intros s m Hfree.
  - simpl. destruct s as [|c s]; [by intros ?%elem_of_nil|].
    destruct (p c); [|by intros ?%elem_of_nil].
    by intros ->%list_elem_of_singleton.
  - simpl in Hfree. apply andb_true_iff in Hfree as [Hfree1 Hfree2].
    intros (m1 & m2 & Hm1 & Hm2 & ->)%elem_of_run_Seq. simpl.
    by rewrite (IH1 _ _ Hfree1 Hm1), (IH2 _ _ Hfree2 Hm2).
  - simpl. intros [Hm|Hm]%elem_of_app; [by eapply IH|].
    by apply list_elem_of_singleton in Hm as ->.
  - simpl. by intros (? & -> & _)%list_elem_of_fmap.
  - by intros [? _]%elem_of_run_Plus.
  - done.
  - simpl. case_bool_decide; [|by intros ?%elem_of_nil].
    by intros ->%list_elem_of_singleton.
Qed.

(** The tail shared by both patterns: white space, the digits, the end of
    the line. *)
Lemma run_page_tail (s : string) (m : rmatch) :
  m ∈ run (Seq (Chr isspace) (Seq (Group (Plus isdigit)) Eol)) s →
  ∃ page, m.1.1 = [page] ∧ page ≠ EmptyString
          ∧ string_forall isdigit page = true.
Proof.
  intros (m1 & m2 & Hm1 & Hm2 & ->)%elem_of_run_Seq.
  apply elem_of_run_Seq in Hm2 as (m3 & m4 & Hm3 & Hm4 & ->).
  apply elem_of_run_Group in Hm3 as (m5 & Hm5 & ->).
  apply elem_of_run_Plus in Hm5 as (Hg5 & Hne & Hdigits).
  apply run_group_free in Hm1; [|done]. apply run_group_free in Hm4; [|done].
  simpl.
  rewrite Hm1, Hm4, Hg5. by exists m5.1.2.
Qed.

Lemma run_alt_groups (line : string) (m : rmatch) :
  m ∈ run alt line →
  ∃ title page, m.1.1 = [title; page] ∧ page ≠ EmptyString
                ∧ string_forall isdigit page = true.
Proof.
  intros (m1 & m2 & Hm1 & Hm2 & ->)%elem_of_run_Seq.
  apply elem_of_run_Group in Hm1 as (m3 & Hm3 & ->).
  apply run_group_free in Hm3; [|done].
  apply run_page_tail in Hm2 as (page & Hg2 & Hpage). simpl.
  rewrite Hm3, Hg2. by exists m3.1.2, page.
Qed.

Lemma run_reg_groups (line : string) (m : rmatch) :
  m ∈ run reg line →
  ∃ num title page, m.1.1 = [num; title; page] ∧ page ≠ EmptyString
                    ∧ string_forall isdigit page = true.
Proof.
  intros (m1 & m2 & Hm1 & Hm2 & ->)%elem_of_run_Seq.
  apply elem_of_run_Group in Hm1 as (m3 & Hm3 & ->).
  apply run_group_free in Hm3; [|done].
  apply elem_of_run_Seq in Hm2 as (m4 & m5 & Hm4 & Hm5 & ->).
  apply run_group_free in Hm4; [|done].
  apply elem_of_run_Seq in Hm5 as (m6 & m7 & Hm6 & Hm7 & ->).
  apply elem_of_run_Group in Hm6 as (m8 & Hm8 & ->).
  apply run_group_free in Hm8; [|done].
  apply run_page_tail in Hm7 as (page & Hg7 & Hpage). simpl.
  rewrite Hm3, Hm4, Hm8, Hg7. by exists m3.1.2, m8.1.2, page.
Qed.

Lemma re_match_Some (r : regex) (line : string) (g : list string) :
  re_match r line = Some g → ∃ m, m ∈ run r line ∧ m.1.1 = g.
Proof.
  unfold re_match. destruct (run r line) as [|m ms]; [done|].
  intros [= <-]. exists m. split; [by left|done].
Qed.

Lemma primary_page_digits (line num title page : string) :
  primary line = Some (num, title, page) →
  page ≠ EmptyString ∧ string_forall isdigit page = true.
Proof.
  unfold primary. destruct (re_match reg line) as [g|] eqn:Hg; [|done].
  apply re_match_Some in Hg as (m & Hm & <-).
  apply run_reg_groups in Hm as (num' & title' & page' & -> & Hpage).
  by intros [= _ _ <-].
Qed.

Lemma fallback_page_digits (line title page : string) :
  fallback line = Some (title, page) →
  page ≠ EmptyString ∧ string_forall isdigit page = true.
Proof.
  unfold fallback. destruct (re_match alt line) as [g|] eqn:Hg; [|done].
  apply re_match_Some in Hg as (m & Hm & <-).
  apply run_alt_groups in Hm as (title' & page' & -> & Hpage).
  by intros [= _ <-].
Qed.

(** ** Pages: strings out of the tokenizer, integers after the offset *)

Lemma digits_value_digits (acc : Z) (after_digit : bool) (s : string) :
  string_forall isdigit s = true →
  s ≠ EmptyString ∨ after_digit = true →
  ∃ z, digits_value acc after_digit s = Some z.
Proof.
  revert acc after_digit. induction s as [|c s IH]; intros acc b Hs Hne; simpl.
  { destruct Hne as [?| ->]; [done|by eexists]. }
  simpl in Hs. apply andb_true_iff in Hs as [-> Hs].
  apply IH; [done|by right].
Qed.

Lemma py_int_digits (page : string) :
  page ≠ EmptyString → string_forall isdigit page = true →
  ∃ z, py_int (PStr page) = Ok z.
Proof.
  intros Hne Hdigits. simpl. rewrite int_of_str_digits by done.
  destruct (digits_value_digits 0 false page Hdigits) as [z ->]; [by left|].
  by eexists.
Qed.

Lemma tok_loop_page_matched (st : tok_state) (lines : list string) :
  Forall (page_matched lines) (yielded (tok_loop st lines)).
Proof.
  revert st. induction lines as [|line lines IH]; intros st; [constructor|].
  assert (∀ st', Forall (page_matched (line :: lines))
                   (yielded (tok_loop st' lines))) as IH'.
  { intros st'. eapply Forall_impl; [|apply IH].
    intros r (l & page & Hl & Hrest). exists l, page. split; [by right|done]. }
  rewrite tok_loop_cons.
  destruct (primary line) as [[[num title] page]|] eqn:Hprimary.
  { rewrite (tok_line_primary _ _ _ _ _ Hprimary). constructor; [|apply IH'].
    exists line, page. split; [by left|]. split; [done|].
    split; [left; by exists num, title|by eapply primary_page_digits]. }
  destruct st as [prev_num cnt].
  destruct (fallback line) as [[title page]|] eqn:Hfallback.
  - rewrite (tok_line_fallback _ _ _ _ _ Hprimary Hfallback).
    constructor; [|apply IH'].
    exists line, page. split; [by left|]. split; [done|].
    split; [right; split; [done|by exists title]|].
    by eapply fallback_page_digits.
  - rewrite (tok_line_skip _ _ Hprimary Hfallback). apply IH'.
Qed.

Lemma apply_page_offset_Ok (records : list record) (offset : Z) :
  Forall (λ r : record, ∃ z, py_int r.2 = Ok z) records →
  ∃ out, apply_page_offset records offset = Ok out
    ∧ Forall2 (λ r r' : record,
                 r'.1 = r.1
                 ∧ ∃ z, py_int r.2 = Ok z ∧ r'.2 = PInt (z + offset)%Z)
        records out.
Proof.
  induction 1 as [|[[num title] page] records [z Hz] _ (out & Hout & IH)].
  { exists []. split; [done|constructor]. }
  simpl in *. rewrite Hz, Hout. eexists. split; [done|].
  constructor; [|done]. simpl. split; [done|]. by exists z.
Qed.

Lemma apply_page_offset_int_pages (records out : list record) (offset : Z) :
  apply_page_offset records offset = Ok out →
  Forall (λ r : record, ∃ z, r.2 = PInt z) out.
Proof.
  revert out. induction records as [|[[num title] page] records IH];
    intros out; simpl.
  { intros [= <-]. constructor. }
  destruct (py_int page) as [p|e]; [|done].
  destruct (apply_page_offset records offset) as [out'|e]; [|done].
  intros [= <-]. constructor; [by eexists|by apply IH].
Qed.

(** C8. On records whose pages are integers, or strings that [int]
    accepts, [apply_page_offset] returns one record for each record of
    the input, in the same order, with the same chapter number and
    title, and with the integer page [int(page) + offset]; the offset is
    any integer. *)
Theorem apply_page_offset_spec (records : list record) (offset : Z) :
  Forall (λ r : record, ∃ z, py_int r.2 = Ok z) records →
  ∃ out, apply_page_offset records offset = Ok out
    ∧ length out = length records
    ∧ Forall2 (λ r r' : record,
                 r'.1 = r.1
                 ∧ ∃ z, py_int r.2 = Ok z ∧ r'.2 = PInt (z + offset)%Z)
        records out.
Proof.
  intros Hpages.
  destruct (apply_page_offset_Ok records offset Hpages) as (out & Hout & Hrel).
  exists out. split; [done|]. split; [|done].
  symmetry. by eapply Forall2_length.
Qed.

Lemma apply_page_offset_spec_witness :
  Forall (λ r : record, ∃ z, py_int r.2 = Ok z)
    [("1.", "Intro", PInt 2); ("1.1", "Background", PStr "3")]
  ∧ ∃ out,
      apply_page_offset
        [("1.", "Intro", PInt 2); ("1.1", "Background", PStr "3")] (-1)
      = Ok out
      ∧ length out = 2.
Proof.
  assert (Forall (λ r : record, ∃ z, py_int r.2 = Ok z)
            [("1.", "Intro", PInt 2); ("1.1", "Background", PStr "3")]) as Hp.
  { repeat constructor; eexists; reflexivity. }
  split; [exact Hp|].
  destruct (apply_page_offset_spec _ (-1) Hp) as (out & Hout & Hlen & _).
  exists out. split; [exact Hout|exact Hlen].
Defined.

(** The claim C4 as it is written fails: the records of the pipeline
    come from [tokenize] with string pages, and the pass with offset 0
    replaces each by an integer, so its output differs from its input. *)
Lemma apply_page_offset_zero_not_identity :
  tokenize ["1. Intro 007" +:+ newline] = [("1.", "Intro", PStr "007")]
  ∧ apply_page_offset (tokenize ["1. Intro 007" +:+ newline]) 0
    = Ok [("1.", "Intro", PInt 7)]
  ∧ ¬ (∀ lines, apply_page_offset (tokenize lines) 0 = Ok (tokenize lines)).
Proof.
  split; [done|]. split; [done|]. intros H.
  by specialize (H ["1. Intro 007" +:+ newline]).
Qed.

(** C4, amended. On every sequence of records whose pages are integers,
    as they are once the pass has run, [apply_page_offset] with offset 0
    is the identity: it returns its input, every field unchanged. *)
Theorem apply_page_offset_zero (records : list record) :
  Forall (λ r : record, ∃ z, r.2 = PInt z) records →
  apply_page_offset records 0 = Ok records.
Proof.
  induction 1 as [|[[num title] page] records [z Hz] _ IH]; [done|].
  simpl in *. subst page. simpl. rewrite IH. by rewrite Z.add_0_r.
Qed.

Lemma apply_page_offset_zero_witness :
  Forall (λ r : record, ∃ z, r.2 = PInt z)
    [("1.", "Intro", PInt 2); ("1.1", "Background", PInt 3)]
  ∧ apply_page_offset [("1.", "Intro", PInt 2); ("1.1", "Background", PInt 3)] 0
    = Ok [("1.", "Intro", PInt 2); ("1.1", "Background", PInt 3)].
Proof.
  assert (Forall (λ r : record, ∃ z, r.2 = PInt z)
            [("1.", "Intro", PInt 2); ("1.1", "Background", PInt 3)]) as Hp.
  { repeat constructor; eexists; reflexivity. }
  split; [exact Hp|]. exact (apply_page_offset_zero _ Hp).
Defined.

(** ** The examples of the specification *)

Example main_example :
  main ["1. Intro 2" +:+ newline; "1.1 Background 3" +:+ newline;
        "2. Results 5" +:+ newline]
       (Some "toc") (PStr "0") None
  = Some (Ok
      ([Node ("1.", "Intro", PInt 2) [Node ("1.1", "Background", PInt 3) []];
        Node ("2.", "Results", PInt 5) []],
       [("toc",
         ["[/Count -1 /Title (1.: Intro) /Page 2 /OUT pdfmark" +:+ newline;
          "[/Title (1.1: Background) /Page 3 /OUT pdfmark" +:+ newline;
          "[/Title (2.: Results) /Page 5 /OUT pdfmark" +:+ newline])])).
Proof. vm_compute. reflexivity. Qed.

Example main_example_offset :
  main ["1. Intro 2" +:+ newline; "1.1 Background 3" +:+ newline;
        "2. Results 5" +:+ newline]
       None (PStr "10") None
  = Some (Ok
      ([Node ("1.", "Intro", PInt 12) [Node ("1.1", "Background", PInt 13) []];
        Node ("2.", "Results", PInt 15) []],
       [])).
Proof. vm_compute. reflexivity. Qed.

Example tokenize_example_noise :
  tok_loop tok_init ["   just some noise without a page" +:+ newline]
  = [Print ("Skipping toc line:    just some noise without a page" +:+ newline)].
Proof. vm_compute. reflexivity. Qed.

Example main_example_chunks :
  main ["1. Intro 2" +:+ newline; "1.1 Background 3" +:+ newline;
        "2. Results 5" +:+ newline]
       (Some "toc") (PInt 0) (Some (PStr "2"))
  = Some (Ok
      ([Node ("1.", "Intro", PInt 2) [Node ("1.1", "Background", PInt 3) []];
        Node ("2.", "Results", PInt 5) []],
       [("toc0",
         ["[/Count -1 /Title (1.: Intro) /Page 2 /OUT pdfmark" +:+ newline;
          "[/Title (1.1: Background) /Page 3 /OUT pdfmark" +:+ newline]);
        ("toc2",
         ["[/Title (2.: Results) /Page 5 /OUT pdfmark" +:+ newline])])).
Proof. vm_compute. reflexivity. Qed.

(** ** Further properties of the tokenizer *)

Lemma string_app_cons (c : ascii) (s1 s2 : string) :
  String c s1 +:+ s2 = String c (s1 +:+ s2).
Proof. done. Qed.

Lemma string_app_assoc (s1 s2 s3 : string) :
  (s1 +:+ s2) +:+ s3 = s1 +:+ (s2 +:+ s3).
Proof.
  induction s1 as [|c s1 IH]; [done|]. by rewrite !string_app_cons, IH.
Qed.

Lemma string_app_nil_r (s : string) : s +:+ EmptyString = s.
Proof. induction s as [|c s IH]; [done|]. by rewrite string_app_cons, IH. Qed.

Lemma string_app_length (s1 s2 : string) :
  String.length (s1 +:+ s2) = String.length s1 + String.length s2.
Proof.
  induction s1 as [|c s1 IH]; [done|]. rewrite string_app_cons. simpl.
  by rewrite IH.
Qed.

Lemma string_forall_app (p : ascii → bool) (s1 s2 : string) :
  string_forall p (s1 +:+ s2) = string_forall p s1 && string_forall p s2.
Proof.
  induction s1 as [|c s1 IH]; [done|]. rewrite string_app_cons. simpl.
  by rewrite IH, andb_assoc.
Qed.

Lemma string_forall_impl (p q : ascii → bool) (s : string) :
  (∀ c, p c = true → q c = true) →
  string_forall p s = true → string_forall q s = true.
Proof.
  intros Hpq. induction s as [|c s IH]; [done|]. simpl.
  intros [Hc Hs]%andb_true_iff. by rewrite (Hpq c Hc), (IH Hs).
Qed.

Lemma yielded_Yield (r : record) (evs : list tok_event) :
  yielded (Yield r :: evs) = r :: yielded evs.
Proof. done. Qed.

Lemma yielded_Print (msg : string) (evs : list tok_event) :
  yielded (Print msg :: evs) = yielded evs.
Proof. done. Qed.

Lemma printed_Yield (r : record) (evs : list tok_event) :
  printed (Yield r :: evs) = printed evs.
Proof. done. Qed.

Lemma printed_Print (msg : string) (evs : list tok_event) :
  printed (Print msg :: evs) = msg :: printed evs.
Proof. done. Qed.

Lemma tok_loop_events (st : tok_state) (lines : list string) :
  length (tok_loop st lines) = length lines
  ∧ length (yielded (tok_loop st lines)) + length (printed (tok_loop st lines))
    = length lines
  ∧ printed (tok_loop st lines)
    = (λ line, "Skipping toc line: " +:+ line)
        <$> filter (λ line, primary line = None ∧ fallback line = None) lines.
Proof.
  revert st. induction lines as [|line lines IH]; intros st; [done|].
  rewrite tok_loop_cons.
  destruct (primary line) as [[[num title] page]|] eqn:Hprimary.
  { rewrite (tok_line_primary _ _ _ _ _ Hprimary).
    destruct (IH (num, 1%Z)) as (Hlen & Hsum & Hprinted).
    rewrite filter_cons_False by (rewrite Hprimary; by intros [? _]).
    cbn [fst snd]. rewrite yielded_Yield, printed_Yield.
    cbn [length]. rewrite Hlen. split; [done|]. split; [lia|done]. }
  destruct st as [prev_num cnt].
  destruct (fallback line) as [[title page]|] eqn:Hfallback.
  - rewrite (tok_line_fallback _ _ _ _ _ Hprimary Hfallback).
    destruct (IH (prev_num, (cnt + 1)%Z)) as (Hlen & Hsum & Hprinted).
    rewrite filter_cons_False by (rewrite Hfallback; by intros [_ ?]).
    cbn [fst snd]. rewrite yielded_Yield, printed_Yield.
    cbn [length]. rewrite Hlen. split; [done|]. split; [lia|done].
  - rewrite (tok_line_skip _ _ Hprimary Hfallback).
    destruct (IH (prev_num, cnt)) as (Hlen & Hsum & Hprinted).
    rewrite filter_cons_True by (by rewrite Hprimary, Hfallback).
    cbn [fst snd]. rewrite yielded_Print, printed_Print.
    cbn [length]. rewrite Hlen. split; [done|]. split; [lia|].
    by rewrite Hprinted.
Qed.

(** X1. Every line makes the tokenizer do exactly one thing: yield a
    record or print the diagnostic.  So the records and the diagnostics
    together are as many as the lines, and the diagnostics are, in
    order, those of the lines that neither pattern accepts, each naming
    its line. *)
Theorem tokenize_one_event_per_line (lines : list string) :
  length (tok_loop tok_init lines) = length lines
  ∧ length (tokenize lines) + length (printed (tok_loop tok_init lines))
    = length lines
  ∧ printed (tok_loop tok_init lines)
    = (λ line, "Skipping toc line: " +:+ line)
        <$> filter (λ line, primary line = None ∧ fallback line = None) lines.
Proof. apply tok_loop_events. Qed.

(** *** The text that a match covers *)

Lemma star_runs_complete (p : ascii → bool) (a rest : string) :
  string_forall p a = true → (a, rest) ∈ star_runs p (a +:+ rest).
Proof.
  induction a as [|c a IH]; simpl.
  { intros _. destruct rest; [by left|]. simpl. apply elem_of_app. right. by left. }
  intros [Hc Ha]%andb_true_iff. rewrite Hc. apply elem_of_app. left.
  apply list_elem_of_fmap. exists (a, rest). split; [done|by apply IH].
Qed.

Lemma elem_of_run_Chr (p : ascii → bool) (s : string) (m : rmatch) :
  m ∈ run (Chr p) s ↔
  ∃ c, p c = true ∧ s = String c m.2 ∧ m = ([], String c EmptyString, m.2).
Proof.
  simpl. split.
  - destruct s as [|c s]; [by intros ?%elem_of_nil|].
    destruct (p c) eqn:Hc; [|by intros ?%elem_of_nil].
    intros ->%list_elem_of_singleton. by exists c.
  - intros (c & Hc & -> & Hm). rewrite Hc, Hm. by left.
Qed.

Lemma elem_of_run_Star (p : ascii → bool) (s : string) (m : rmatch) :
  m ∈ run (Star p) s ↔
  string_forall p m.1.2 = true ∧ s = m.1.2 +:+ m.2 ∧ m.1.1 = [].
Proof.
  simpl. rewrite list_elem_of_fmap. split.
  - intros ([a rest] & -> & Hin). simpl.
    by destruct (elem_of_star_runs _ _ _ _ Hin) as [Ha ->].
  - destruct m as [[g a] rest]. simpl. intros (Ha & -> & ->).
    exists (a, rest). split; [done|by apply star_runs_complete].
Qed.

Lemma elem_of_run_Plus_iff (p : ascii → bool) (s : string) (m : rmatch) :
  m ∈ run (Plus p) s ↔
  string_forall p m.1.2 = true ∧ m.1.2 ≠ EmptyString
  ∧ s = m.1.2 +:+ m.2 ∧ m.1.1 = [].
Proof.
  simpl. split.
  - destruct s as [|c s]; [by intros ?%elem_of_nil|].
    destruct (p c) eqn:Hc; [|by intros ?%elem_of_nil].
    intros ([a rest] & -> & Hin)%list_elem_of_fmap. simpl.
    destruct (elem_of_star_runs _ _ _ _ Hin) as [Ha ->].
    by rewrite Hc, Ha.
  - destruct m as [[g a] rest]. simpl. intros (Ha & Hne & -> & ->).
    destruct a as [|c a]; [done|]. simpl in *.
    apply andb_true_iff in Ha as [Hc Ha]. rewrite Hc.
    apply list_elem_of_fmap. exists (a, rest). split; [done|].
    by apply star_runs_complete.
Qed.

Lemma elem_of_run_Eol (s : string) (m : rmatch) :
  m ∈ run Eol s ↔
  (s = EmptyString ∨ s = newline) ∧ m = ([], EmptyString, s).
Proof.
  simpl. case_bool_decide as Hs.
  - rewrite list_elem_of_singleton. split; [by intros ->|by intros [_ ->]].
  - split; [by intros ?%elem_of_nil|]. by intros [? _].
Qed.

Lemma elem_of_run_Opt (r : regex) (s : string) (m : rmatch) :
  m ∈ run (Opt r) s ↔ m ∈ run r s ∨ m = ([], EmptyString, s).
Proof. simpl. by rewrite elem_of_app, list_elem_of_singleton. Qed.

(** *** The fields of an accepted line *)

Lemma run_letter_dot (s : string) (m : rmatch) :
  m ∈ run (Opt (Seq (Chr isupper) (Chr isdot))) s ↔
  m.1.1 = [] ∧ s = m.1.2 +:+ m.2
  ∧ (m.1.2 = EmptyString
     ∨ ∃ letter, isupper letter = true
                 ∧ m.1.2 = String letter (String "." EmptyString)).
Proof.
  rewrite elem_of_run_Opt, elem_of_run_Seq. split.
  - intros [(m1 & m2 & Hm1 & Hm2 & ->)| ->]; [|by auto].
    apply elem_of_run_Chr in Hm1 as (u & Hu & -> & ->).
    apply elem_of_run_Chr in Hm2 as (d & Hd & Hs & ->). simpl in *.
    apply bool_decide_eq_true in Hd as ->. rewrite Hs.
    split; [done|]. split; [done|]. right. by exists u.
  - destruct m as [[g t] rest]. cbn [fst snd].
    intros (-> & -> & [->|(u & Hu & ->)]); [by right|]. left.
    exists ([], String u EmptyString, String "." rest),
           ([], String "." EmptyString, rest).
    split; [|split; [|done]]; apply elem_of_run_Chr; simpl.
    + by exists u.
    + by exists "."%char.
Qed.

Lemma run_chapter (s : string) (m : rmatch) :
  m ∈ run (Group (Seq (Opt (Seq (Chr isupper) (Chr isdot)))
                      (Star isdigit_or_dot))) s ↔
  m.1.1 = [m.1.2] ∧ s = m.1.2 +:+ m.2 ∧ chapter_shape m.1.2.
Proof.
  rewrite elem_of_run_Group. split.
  - intros (m' & (m1 & m2 & Hm1 & Hm2 & ->)%elem_of_run_Seq & ->).
    apply run_letter_dot in Hm1 as (Hg1 & -> & Hletter).
    apply elem_of_run_Star in Hm2 as (Hdigits & Hs & Hg2). simpl.
    rewrite Hg1, Hg2, Hs, string_app_assoc. split; [done|]. split; [done|].
    exists m2.1.2. split; [done|].
    destruct Hletter as [->|(u & Hu & ->)]; [by left|right]. by exists u.
  - destruct m as [[g t] rest]. cbn [fst snd].
    intros (-> & -> & digits & Hdigits & Hshape).
    destruct Hshape as [->|(u & Hu & ->)].
    + exists ([], digits, rest). split; [|done].
      apply elem_of_run_Seq.
      exists ([], EmptyString, digits +:+ rest), ([], digits, rest).
      split; [apply run_letter_dot; simpl; by auto|].
      split; [by apply elem_of_run_Star|done].
    + exists ([], String u (String "." digits), rest). split; [|done].
      apply elem_of_run_Seq.
      exists ([], String u (String "." EmptyString), digits +:+ rest),
             ([], digits, rest).
      split; [apply run_letter_dot; simpl|].
      { split; [done|]. split; [done|]. right. by exists u. }
      split; [by apply elem_of_run_Star|done].
Qed.

Lemma run_title (s : string) (m : rmatch) :
  m ∈ run (Group (Star notnewline)) s ↔
  m.1.1 = [m.1.2] ∧ s = m.1.2 +:+ m.2 ∧ string_forall notnewline m.1.2 = true.
Proof.
  rewrite elem_of_run_Group. split.
  - intros (m' & (Ht & Hs & Hg)%elem_of_run_Star & ->). simpl.
    by rewrite Hg.
  - destruct m as [[g t] rest]. cbn [fst snd]. intros (-> & -> & Ht).
    exists ([], t, rest). split; [by apply elem_of_run_Star|done].
Qed.

Lemma run_page_end (s : string) (m : rmatch) :
  m ∈ run (Seq (Chr isspace) (Seq (Group (Plus isdigit)) Eol)) s ↔
  ∃ c page,
    isspace c = true ∧ string_forall isdigit page = true
    ∧ page ≠ EmptyString
    ∧ (m.2 = EmptyString ∨ m.2 = newline)
    ∧ s = String c (page +:+ m.2)
    ∧ m = ([page], String c page, m.2).
Proof.
  rewrite elem_of_run_Seq. split.
  - intros (m1 & m2 & Hm1 & Hm2 & ->).
    apply elem_of_run_Chr in Hm1 as (c & Hc & -> & Hm1).
    apply elem_of_run_Seq in Hm2 as (m3 & m4 & Hm3 & Hm4 & ->).
    apply elem_of_run_Group in Hm3 as (m5 & Hm5 & ->).
    apply elem_of_run_Plus_iff in Hm5 as (Hdigits & Hne & Hs & Hg).
    apply elem_of_run_Eol in Hm4 as (Hend & ->). simpl in *.
    exists c, m5.1.2. rewrite Hm1, Hg, Hs. cbn [fst snd app].
    rewrite string_app_nil_r. by rewrite string_app_cons.
  - destruct m as [[g t] rest]. cbn [fst snd].
    intros (c & page & Hc & Hdigits & Hne & Hend & -> & [= -> ->]).
    exists ([], String c EmptyString, page +:+ rest), ([page], page, rest).
    split; [apply elem_of_run_Chr; by exists c|]. split; [|done].
    apply elem_of_run_Seq. exists ([page], page, rest), ([], EmptyString, rest).
    split; [|split].
    + apply elem_of_run_Group. exists ([], page, rest). split; [|done].
      by apply elem_of_run_Plus_iff.
    + by apply elem_of_run_Eol.
    + simpl. by rewrite string_app_nil_r.
Qed.

(** What a match of the fallback pattern is. *)
Lemma run_alt_fields (line : string) (m : rmatch) :
  m ∈ run alt line ↔
  ∃ title c page,
    string_forall notnewline title = true
    ∧ isspace c = true
    ∧ string_forall isdigit page = true ∧ page ≠ EmptyString
    ∧ (m.2 = EmptyString ∨ m.2 = newline)
    ∧ line = title +:+ String c (page +:+ m.2)
    ∧ m = ([title; page], title +:+ String c page, m.2).
Proof.
  unfold alt. rewrite elem_of_run_Seq. split.
  - intros (m1 & m2 & Hm1 & Hm2 & ->).
    apply run_title in Hm1 as (Hg1 & -> & Htitle).
    apply run_page_end in Hm2
      as (c & page & Hc & Hdigits & Hne & Hend & Hs & ->).
    cbn [fst snd] in *. exists m1.1.2, c, page. by rewrite Hg1, Hs.
  - destruct m as [[g t] rest]. cbn [fst snd].
    intros (title & c & page & Htitle & Hc & Hdigits & Hne & Hend & -> & [= -> ->]).
    exists ([title], title, String c (page +:+ rest)),
           ([page], String c page, rest).
    split; [by apply run_title|]. split; [|done].
    apply run_page_end. by exists c, page.
Qed.

(** What a match of the primary pattern is. *)
Lemma run_reg_fields (line : string) (m : rmatch) :
  m ∈ run reg line ↔
  ∃ num c1 title c2 page,
    chapter_shape num
    ∧ isspace c1 = true
    ∧ string_forall notnewline title = true
    ∧ isspace c2 = true
    ∧ string_forall isdigit page = true ∧ page ≠ EmptyString
    ∧ (m.2 = EmptyString ∨ m.2 = newline)
    ∧ line = num +:+ String c1 (title +:+ String c2 (page +:+ m.2))
    ∧ m = ([num; title; page],
           num +:+ String c1 (title +:+ String c2 page), m.2).
Proof.
  unfold reg. rewrite elem_of_run_Seq. split.
  - intros (m1 & m2 & Hm1 & Hm2 & ->).
    apply run_chapter in Hm1 as (Hg1 & -> & Hnum).
    apply elem_of_run_Seq in Hm2 as (m3 & m4 & Hm3 & Hm4 & ->).
    apply elem_of_run_Chr in Hm3 as (c1 & Hc1 & Hs1 & ->).
    apply elem_of_run_Seq in Hm4 as (m5 & m6 & Hm5 & Hm6 & ->).
    apply run_title in Hm5 as (Hg5 & Hs5 & Htitle).
    apply run_page_end in Hm6
      as (c2 & page & Hc2 & Hdigits & Hne & Hend & Hs6 & ->).
    cbn [fst snd] in *. exists m1.1.2, c1, m5.1.2, c2, page.
    rewrite Hg1, Hg5, Hs1, Hs5, Hs6. by cbn [app].
  - destruct m as [[g t] rest]. cbn [fst snd].
    intros (num & c1 & title & c2 & page & Hnum & Hc1 & Htitle & Hc2 & Hdigits
            & Hne & Hend & -> & [= -> ->]).
    exists ([num], num, String c1 (title +:+ String c2 (page +:+ rest))),
           ([title; page], String c1 (title +:+ String c2 page), rest).
    split; [by apply run_chapter|]. split; [|done].
    apply elem_of_run_Seq.
    exists ([], String c1 EmptyString, title +:+ String c2 (page +:+ rest)),
           ([title; page], title +:+ String c2 page, rest).
    split; [apply elem_of_run_Chr; by exists c1|]. split; [|done].
    apply (run_alt_fields _ ([title; page], title +:+ String c2 page, rest)).
    by exists title, c2, page.
Qed.

Lemma re_match_is_Some (r : regex) (line : string) (m : rmatch) :
  m ∈ run r line → ∃ m', m' ∈ run r line ∧ re_match r line = Some m'.1.1.
Proof.
  unfold re_match. destruct (run r line) as [|m' ms]; [by intros ?%elem_of_nil|].
  intros _. exists m'. split; [by left|done].
Qed.

Lemma primary_line_shape (line num title page : string) :
  primary line = Some (num, title, page) →
  ∃ c1 c2 tail,
    line = num +:+ String c1 (title +:+ String c2 (page +:+ tail))
    ∧ isspace c1 = true ∧ isspace c2 = true
    ∧ (tail = EmptyString ∨ tail = newline)
    ∧ chapter_shape num
    ∧ string_forall notnewline title = true
    ∧ string_forall isdigit page = true ∧ page ≠ EmptyString.
Proof.
  unfold primary. destruct (re_match reg line) as [g|] eqn:Hg; [|done].
  apply re_match_Some in Hg as (m & Hm & <-).
  apply run_reg_fields in Hm
    as (num' & c1 & title' & c2 & page' & Hnum & Hc1 & Htitle & Hc2 & Hdigits
        & Hne & Hend & Hline & ->).
  cbn [fst snd]. intros [= <- <- <-]. by exists c1, c2, m.2.
Qed.

(** X2. A line that the primary pattern accepts is its three fields with
    one white-space character after the chapter number and one before
    the page, and nothing after the page but the end of the line: the
    chapter number is a capital letter and a dot, or nothing, followed
    by digits and dots; the title holds no line feed; the page is one or
    more digits. *)
Theorem primary_fields (line num title page : string) :
  primary line = Some (num, title, page) →
  ∃ c1 c2 tail,
    line = num +:+ String c1 (title +:+ String c2 (page +:+ tail))
    ∧ isspace c1 = true ∧ isspace c2 = true
    ∧ (tail = EmptyString ∨ tail = newline)
    ∧ chapter_shape num
    ∧ string_forall notnewline title = true
    ∧ string_forall isdigit page = true ∧ page ≠ EmptyString.
Proof. apply primary_line_shape. Qed.

Lemma primary_fields_witness :
  primary ("A.1  sub app   007" +:+ newline) = Some ("A.1", " sub app  ", "007")
  ∧ ∃ c1 c2 tail,
      "A.1  sub app   007" +:+ newline
      = "A.1" +:+ String c1 (" sub app  " +:+ String c2 ("007" +:+ tail)).
Proof.
  assert (primary ("A.1  sub app   007" +:+ newline)
          = Some ("A.1", " sub app  ", "007")) as Hp by reflexivity.
  split; [exact Hp|].
  destruct (primary_fields _ _ _ _ Hp) as (c1 & c2 & tail & Hline & _).
  exists c1, c2, tail. exact Hline.
Defined.

Lemma fallback_line_shape (line title page : string) :
  fallback line = Some (title, page) →
  ∃ c tail,
    line = title +:+ String c (page +:+ tail)
    ∧ isspace c = true
    ∧ (tail = EmptyString ∨ tail = newline)
    ∧ string_forall notnewline title = true
    ∧ string_forall isdigit page = true ∧ page ≠ EmptyString.
Proof.
  unfold fallback. destruct (re_match alt line) as [g|] eqn:Hg; [|done].
  apply re_match_Some in Hg as (m & Hm & <-).
  apply run_alt_fields in Hm
    as (title' & c & page' & Htitle & Hc & Hdigits & Hne & Hend & Hline & ->).
  cbn [fst snd]. intros [= <- <-]. by exists c, m.2.
Qed.

(** X3. A line that only the fallback pattern gets is its title, one
    white-space character, the page and the end of the line: the title
    holds no line feed and the page is one or more digits. *)
Theorem fallback_fields (line title page : string) :
  fallback line = Some (title, page) →
  ∃ c tail,
    line = title +:+ String c (page +:+ tail)
    ∧ isspace c = true
    ∧ (tail = EmptyString ∨ tail = newline)
    ∧ string_forall notnewline title = true
    ∧ string_forall isdigit page = true ∧ page ≠ EmptyString.
Proof. apply fallback_line_shape. Qed.

Lemma fallback_fields_witness :
  fallback ("Chapter one 3" +:+ newline) = Some ("Chapter one", "3")
  ∧ ∃ c tail,
      "Chapter one 3" +:+ newline = "Chapter one" +:+ String c ("3" +:+ tail).
Proof.
  assert (fallback ("Chapter one 3" +:+ newline) = Some ("Chapter one", "3"))
    as Hf by reflexivity.
  split; [exact Hf|].
  destruct (fallback_fields _ _ _ Hf) as (c & tail & Hline & _).
  exists c, tail. exact Hline.
Defined.

(** X4. The lines that yield a record are exactly the lines of one of
    the two forms: the primary pattern accepts a line if and only if the
    line can be cut into a chapter number, a white-space character, a
    title without line feed, a white-space character, one or more
    digits, and then its end or a final line feed; the fallback pattern
    accepts it if and only if it can be cut in the same way without the
    chapter number and its white space. *)
Theorem accepted_lines (line : string) :
  ((∃ fields, primary line = Some fields) ↔
   ∃ num c1 title c2 page tail,
     line = num +:+ String c1 (title +:+ String c2 (page +:+ tail))
     ∧ chapter_shape num ∧ isspace c1 = true
     ∧ string_forall notnewline title = true ∧ isspace c2 = true
     ∧ string_forall isdigit page = true ∧ page ≠ EmptyString
     ∧ (tail = EmptyString ∨ tail = newline))
  ∧ ((∃ fields, fallback line = Some fields) ↔
     ∃ title c page tail,
       line = title +:+ String c (page +:+ tail)
       ∧ string_forall notnewline title = true ∧ isspace c = true
       ∧ string_forall isdigit page = true ∧ page ≠ EmptyString
       ∧ (tail = EmptyString ∨ tail = newline)).
Proof.
  split; split.
  - intros [[[num title] page] Hp].
    destruct (primary_page_digits _ _ _ _ Hp) as [Hne Hdigits].
    revert Hp. unfold primary.
    destruct (re_match reg line) as [g|] eqn:Hg; [|done].
    apply re_match_Some in Hg as (m & Hm & <-).
    apply run_reg_fields in Hm
      as (num' & c1 & title' & c2 & page' & Hnum & Hc1 & Htitle & Hc2 & Hd
          & Hn & Hend & Hline & ->).
    intros _. by exists num', c1, title', c2, page', m.2.
  - intros (num & c1 & title & c2 & page & tail & Hline & Hnum & Hc1 & Htitle
            & Hc2 & Hdigits & Hne & Hend).
    destruct (re_match_is_Some reg line
                ([num; title; page],
                 num +:+ String c1 (title +:+ String c2 page), tail))
      as (m' & Hm' & Hmatch).
    { apply run_reg_fields. by exists num, c1, title, c2, page. }
    apply run_reg_fields in Hm'
      as (num' & c1' & title' & c2' & page' & _ & _ & _ & _ & _ & _ & _ & _ & Heq).
    rewrite Heq in Hmatch.
    exists (num', title', page'). unfold primary. by rewrite Hmatch.
  - intros [[title page] Hf]. revert Hf. unfold fallback.
    destruct (re_match alt line) as [g|] eqn:Hg; [|done].
    apply re_match_Some in Hg as (m & Hm & <-).
    apply run_alt_fields in Hm
      as (title' & c & page' & Htitle & Hc & Hdigits & Hne & Hend & Hline & ->).
    intros _. by exists title', c, page', m.2.
  - intros (title & c & page & tail & Hline & Htitle & Hc & Hdigits & Hne & Hend).
    destruct (re_match_is_Some alt line
                ([title; page], title +:+ String c page, tail))
      as (m' & Hm' & Hmatch).
    { apply run_alt_fields. by exists title, c, page. }
    apply run_alt_fields in Hm'
      as (title' & c' & page' & _ & _ & _ & _ & _ & _ & Heq).
    rewrite Heq in Hmatch.
    exists (title', page'). unfold fallback. by rewrite Hmatch.
Qed.

(** ** Further properties of the tree builder *)

Lemma filter_fmap {A B} (f : A → B) (P : B → Prop) `{!∀ x, Decision (P x)}
    (l : list A) :
  filter P (f <$> l) = f <$> filter (λ x, P (f x)) l.
Proof.
  induction l as [|x l IH]; [done|]. rewrite fmap_cons, !filter_cons.
  case_decide; by rewrite IH.
Qed.

Lemma filter_Forall_id {A} (P : A → Prop) `{!∀ x, Decision (P x)} (l : list A) :
  Forall P l → filter P l = l.
Proof.
  induction 1 as [|x l Hx _ IH]; [done|].
  by rewrite filter_cons_True, IH.
Qed.

Lemma filter_Forall_nil {A} (P : A → Prop) `{!∀ x, Decision (P x)} (l : list A) :
  Forall (λ x, ¬ P x) l → filter P l = [].
Proof.
  induction 1 as [|x l Hx _ IH]; [done|].
  by rewrite filter_cons_False.
Qed.

Lemma tree_ize_graph_functional (records : list record) (tree1 tree2 : list node) :
  tree_ize_graph records tree1 → tree_ize_graph records tree2 → tree1 = tree2.
Proof.
  intros H1. revert tree2.
  induction H1 as [|parent rest subtree nodes _ IHsub _ IHnodes];
    intros tree2 H2; inv H2; [done|].
  f_equal; [f_equal|]; auto.
Qed.

(** The tree that the builder returns under the default policy is the
    tree of the graph. *)
Lemma tree_ize_graph_run (records : list record) (tree : list node) :
  tree_ize_graph records tree →
  tree_ize get_matching_prfx records = Some (Ok tree).
Proof.
  intros Hgraph.
  destruct (tree_ize_default records) as (tree' & Hrun & Hgraph').
  by rewrite (tree_ize_graph_functional _ _ _ Hgraph Hgraph').
Qed.

Lemma tree_ize_run_graph (records : list record) (tree : list node) :
  tree_ize get_matching_prfx records = Some (Ok tree) →
  tree_ize_graph records tree.
Proof.
  intros Hrun.
  destruct (tree_ize_default records) as (tree' & Hrun' & Hgraph').
  rewrite Hrun in Hrun'. by injection Hrun' as ->.
Qed.

Lemma tree_ize_graph_single (parent : record) (rest : list record)
    (subtree : list node) :
  Forall (λ r : record, startswith r.1.1 parent.1.1 = true) rest →
  tree_ize_graph rest subtree →
  tree_ize_graph (parent :: rest) [Node parent subtree].
Proof.
  intros Hall Hsub. constructor.
  - rewrite get_matching_prfx_filter, filter_Forall_id; [done|].
    eapply Forall_impl; [|exact Hall]. intros r Hr. simpl in Hr.
    by apply Is_true_true.
  - rewrite filter_Forall_nil; [constructor|].
    eapply Forall_impl; [|exact Hall]. intros r Hr Hn. simpl in *.
    apply Hn. by apply Is_true_true.
Qed.

(** X5. When every record after the first starts with the chapter number
    of the first, the tree has a single top-level node, the first
    record, and below it the tree of the others. *)
Theorem tree_ize_single_root (parent : record) (rest : list record) :
  Forall (λ r : record, startswith r.1.1 parent.1.1 = true) rest →
  ∃ subtree,
    tree_ize get_matching_prfx rest = Some (Ok subtree)
    ∧ tree_ize get_matching_prfx (parent :: rest)
      = Some (Ok [Node parent subtree]).
Proof.
  intros Hall.
  destruct (tree_ize_default rest) as (subtree & Hrun & Hgraph).
  exists subtree. split; [done|].
  by apply tree_ize_graph_run, tree_ize_graph_single.
Qed.

Lemma tree_ize_single_root_witness :
  Forall (λ r : record, startswith r.1.1 "1" = true)
    [("1.1", "a", PInt 2); ("10", "b", PInt 3)]
  ∧ ∃ subtree,
      tree_ize get_matching_prfx
        [("1", "Intro", PInt 1); ("1.1", "a", PInt 2); ("10", "b", PInt 3)]
      = Some (Ok [Node ("1", "Intro", PInt 1) subtree]).
Proof.
  assert (Forall (λ r : record, startswith r.1.1 "1" = true)
            [("1.1", "a", PInt 2); ("10", "b", PInt 3)]) as Hall.
  { repeat constructor. }
  split; [exact Hall|].
  destruct (tree_ize_single_root ("1", "Intro", PInt 1) _ Hall)
    as (subtree & _ & Hrun).
  exists subtree. exact Hrun.
Defined.

Lemma startswith_empty (s : string) : startswith s EmptyString = true.
Proof. by destruct s. Qed.

Lemma chapter_char_not_space (c : ascii) :
  isdigit_or_dot c = true ∨ isupper c = true → isspace c = false.
Proof.
  unfold isdigit_or_dot, isupper, isdigit, isspace, code.
  intros [[[H1 H2]%andb_true_iff| ->%bool_decide_eq_true]%orb_true_iff
         |[H1 H2]%andb_true_iff]; [|done|];
    apply N.leb_le in H1, H2;
    repeat (apply orb_false_iff; split);
    rewrite ?andb_false_iff, ?N.leb_gt, ?N.eqb_neq; lia.
Qed.

(** X6. A line that begins with white space and that the primary pattern
    accepts yields the empty chapter number; and a record with the empty
    chapter number takes every record that is in the pool with it as a
    descendant, since the empty string is a prefix of every chapter
    number. *)
Theorem tree_ize_empty_chapter_number (rest : list record)
    (title : string) (page : pyval) :
  (∃ subtree,
     tree_ize get_matching_prfx rest = Some (Ok subtree)
     ∧ tree_ize get_matching_prfx ((EmptyString, title, page) :: rest)
       = Some (Ok [Node (EmptyString, title, page) subtree])
     ∧ get_matching_prfx (EmptyString, title, page) rest = rest)
  ∧ (∀ c line fields,
       isspace c = true → primary (String c line) = Some fields →
       fields.1.1 = EmptyString).
Proof.
  split.
  - destruct (tree_ize_default rest) as (subtree & Hrun & Hgraph).
    assert (Forall (λ r : record, startswith r.1.1 EmptyString = true) rest)
      as Hall.
    { apply list.Forall_forall. intros r _. apply startswith_empty. }
    exists subtree. split; [done|]. split.
    + by apply tree_ize_graph_run, tree_ize_graph_single.
    + rewrite get_matching_prfx_filter, filter_Forall_id; [done|].
      eapply Forall_impl; [|exact Hall]. intros r Hr. simpl in Hr.
      by apply Is_true_true.
  - intros c line [[num title'] page'] Hc Hprimary. simpl.
    destruct (primary_line_shape _ _ _ _ Hprimary)
      as (c1 & c2 & tail & Hline & _ & _ & _ & Hshape & _).
    destruct Hshape as (digits & Hdigits & [->|(u & Hu & ->)]).
    + destruct digits as [|d digits]; [done|].
      rewrite string_app_cons in Hline. injection Hline as -> _.
      simpl in Hdigits. apply andb_true_iff in Hdigits as [Hd _].
      rewrite chapter_char_not_space in Hc by by left. done.
    + rewrite string_app_cons in Hline. injection Hline as -> _.
      rewrite chapter_char_not_space in Hc by by right. done.
Qed.

Lemma get_matching_prfx_fmap (f : record → record) (parent : record)
    (rest : list record) :
  (∀ r, (f r).1.1 = r.1.1) →
  get_matching_prfx (f parent) (f <$> rest)
  = f <$> get_matching_prfx parent rest.
Proof.
  intros Hf. rewrite !get_matching_prfx_filter, filter_fmap.
  f_equal. apply list_filter_iff. intros r. by rewrite !Hf.
Qed.

Lemma tree_ize_graph_fmap (f : record → record) (records : list record)
    (tree : list node) :
  (∀ r, (f r).1.1 = r.1.1) →
  tree_ize_graph records tree →
  tree_ize_graph (f <$> records) (node_map f <$> tree).
Proof.
  intros Hf. induction 1 as [|parent rest subtree nodes _ IHsub _ IHnodes].
  { constructor. }
  rewrite !fmap_cons. simpl. constructor.
  - by rewrite get_matching_prfx_fmap.
  - rewrite filter_fmap.
    erewrite list_filter_iff; [exact IHnodes|].
    intros r. simpl. by rewrite !Hf.
Qed.

Lemma apply_page_offset_fmap (records out : list record) (offset : Z) :
  apply_page_offset records offset = Ok out →
  out = offset_record offset <$> records.
Proof.
  revert out. induction records as [|[[num title] page] records IH];
    intros out; simpl.
  { by intros [= <-]. }
  destruct (py_int page) as [p|e] eqn:Hp; [|done].
  destruct (apply_page_offset records offset) as [out'|e]; [|done].
  intros [= <-]. rewrite (IH out' eq_refl). f_equal.
  unfold offset_record. simpl. by rewrite Hp.
Qed.

Lemma offset_record_num (offset : Z) (r : record) :
  (offset_record offset r).1.1 = r.1.1.
Proof. unfold offset_record. by destruct (py_int r.2). Qed.

(** X7. The page offset does not change the structure of the tree:
    building the tree after the pass gives the tree built before it,
    with the pass applied to the record of every node.  The tree depends
    on the chapter numbers only. *)
Theorem tree_ize_apply_page_offset (records out : list record) (offset : Z)
    (tree : list node) :
  apply_page_offset records offset = Ok out →
  tree_ize get_matching_prfx records = Some (Ok tree) →
  tree_ize get_matching_prfx out
  = Some (Ok (node_map (offset_record offset) <$> tree)).
Proof.
  intros ->%apply_page_offset_fmap Hgraph%tree_ize_run_graph.
  apply tree_ize_graph_run, tree_ize_graph_fmap; [|done].
  apply offset_record_num.
Qed.

Lemma tree_ize_apply_page_offset_witness :
  apply_page_offset
    [("1.", "Intro", PStr "2"); ("1.1", "Background", PStr "3");
     ("2.", "Results", PStr "5")] 10
  = Ok [("1.", "Intro", PInt 12); ("1.1", "Background", PInt 13);
        ("2.", "Results", PInt 15)]
  ∧ tree_ize get_matching_prfx
      [("1.", "Intro", PInt 12); ("1.1", "Background", PInt 13);
       ("2.", "Results", PInt 15)]
    = Some (Ok [Node ("1.", "Intro", PInt 12)
                  [Node ("1.1", "Background", PInt 13) []];
                Node ("2.", "Results", PInt 15) []]).
Proof.
  split; [reflexivity|].
  exact (tree_ize_apply_page_offset
           [("1.", "Intro", PStr "2"); ("1.1", "Background", PStr "3");
            ("2.", "Results", PStr "5")] _ 10
           [Node ("1.", "Intro", PStr "2") [Node ("1.1", "Background", PStr "3") []];
            Node ("2.", "Results", PStr "5") []]
           eq_refl eq_refl).
Defined.

Lemma sibling_lists_cons (data : record) (children tree : list node) :
  sibling_lists (Node data children :: tree)
  = (Node data children :: tree)
    :: sibling_lists children ++ (tree ≫= sibling_lists_node).
Proof. done. Qed.

Lemma tree_ize_graph_siblings_split (records : list record) (tree : list node) :
  tree_ize_graph records tree → siblings_split tree.
Proof.
  induction 1 as [|parent rest subtree nodes Hsub _ Hnodes IHnodes];
    intros before n after Heq.
  { by destruct before. }
  destruct before as [|b before']; simplify_eq/=.
  - split.
    + rewrite (tree_ize_graph_flatten _ _ Hsub), get_matching_prfx_filter.
      apply list.Forall_forall. intros r [Hr _]%list_elem_of_filter.
      by apply Is_true_true.
    + rewrite (tree_ize_graph_flatten _ _ Hnodes).
      apply list.Forall_forall. intros r [Hr _]%list_elem_of_filter.
      simpl in Hr. by destruct (startswith r.1.1 parent.1.1).
  - by apply (IHnodes before' n after).
Qed.

Lemma tree_ize_graph_all_siblings_split (records : list record)
    (tree : list node) :
  tree_ize_graph records tree → Forall siblings_split (sibling_lists tree).
Proof.
  induction 1 as [|parent rest subtree nodes Hsub IHsub Hnodes IHnodes].
  { constructor; [|constructor]. intros before n after Heq. by destruct before. }
  rewrite sibling_lists_cons. constructor; [|apply Forall_app; split].
  - eapply tree_ize_graph_siblings_split. by constructor.
  - exact IHsub.
  - by apply Forall_inv_tail in IHnodes.
Qed.

(** X8. In the tree built with the default policy, at every depth: all
    the records below a node, not only its direct children, start with
    its chapter number, and no record of a later sibling or below one
    does.  So each node holds all the later records of its pool that
    start with its chapter number. *)
Theorem tree_ize_siblings_split (records : list record) :
  ∃ tree, tree_ize get_matching_prfx records = Some (Ok tree)
          ∧ Forall siblings_split (sibling_lists tree).
Proof.
  destruct (tree_ize_default records) as (tree & Hrun & Hgraph).
  exists tree. split; [done|].
  by apply (tree_ize_graph_all_siblings_split records).
Qed.

Lemma tree_ize_fuel_top_level (fuel : nat)
    (find_children : record → list record → list record)
    (records : list record) (tree : list node) :
  tree_ize_fuel fuel find_children records = Some (Ok tree) →
  Forall (λ n, ∃ pool,
            tree_ize get_matching_prfx (find_children (node_data n) pool)
            = Some (Ok (node_children n))) tree.
Proof.
  revert records tree. induction fuel as [|fuel IH]; intros records tree; [done|].
  simpl. destruct records as [|parent rest]; [intros [= <-]; constructor|].
  destruct (remove_each (find_children parent rest) rest) as [rest'|e] eqn:Hrm;
    [|done].
  destruct (tree_ize_fuel fuel get_matching_prfx (find_children parent rest))
    as [[subtree|e]|] eqn:Hsub; [|done..].
  destruct (tree_ize_fuel fuel find_children rest') as [[nodes|e]|] eqn:Hnodes;
    [|done..].
  intros [= <-]. constructor; [|by eapply IH].
  exists rest. simpl. unfold tree_ize.
  destruct (tree_ize_fuel_default (S (length (find_children parent rest)))
              (find_children parent rest)) as (t & Ht & _); [lia|].
  destruct (Nat.le_ge_cases fuel (S (length (find_children parent rest))))
    as [Hle|Hge].
  - by apply (tree_ize_fuel_mono _ _ _ _ _ Hsub Hle).
  - rewrite (tree_ize_fuel_mono _ _ _ _ _ Ht Hge) in Hsub.
    by injection Hsub as <-.
Qed.

(** X10. The policy given to [tree_ize] groups the top-level nodes only:
    the recursive call passes no policy, so below each top-level node
    the tree is the one that the default prefix policy builds from the
    records that the given policy returned for it, and there every
    child's chapter number starts with its parent's. *)
Theorem tree_ize_policy_top_level_only
    (find_children : record → list record → list record)
    (records : list record) (tree : list node) :
  tree_ize find_children records = Some (Ok tree) →
  Forall (λ n,
            (∃ pool,
               tree_ize get_matching_prfx (find_children (node_data n) pool)
               = Some (Ok (node_children n)))
            ∧ ∀ p c, (p, c) ∈ edges (node_children n) →
                     startswith c.1.1 p.1.1 = true) tree.
Proof.
  intros Hrun%tree_ize_fuel_top_level.
  eapply Forall_impl; [|exact Hrun].
  intros n [pool Hpool]. simpl. split; [by exists pool|].
  by eapply tree_ize_graph_edges, tree_ize_run_graph.
Qed.

Lemma tree_ize_policy_top_level_only_witness :
  tree_ize (λ _ pool, take 2 pool)
    [("2", "b", PInt 2); ("1", "a", PInt 1); ("1.1", "aa", PInt 3);
     ("3", "c", PInt 4)]
  = Some (Ok [Node ("2", "b", PInt 2)
                [Node ("1", "a", PInt 1) [Node ("1.1", "aa", PInt 3) []]];
              Node ("3", "c", PInt 4) []])
  ∧ Forall (λ n, ∀ p c, (p, c) ∈ edges (node_children n) →
                        startswith c.1.1 p.1.1 = true)
      [Node ("2", "b", PInt 2)
         [Node ("1", "a", PInt 1) [Node ("1.1", "aa", PInt 3) []]];
       Node ("3", "c", PInt 4) []].
Proof.
  assert (tree_ize (λ _ pool, take 2 pool)
            [("2", "b", PInt 2); ("1", "a", PInt 1); ("1.1", "aa", PInt 3);
             ("3", "c", PInt 4)]
          = Some (Ok [Node ("2", "b", PInt 2)
                        [Node ("1", "a", PInt 1) [Node ("1.1", "aa", PInt 3) []]];
                      Node ("3", "c", PInt 4) []]))
    as Hrun by reflexivity.
  split; [exact Hrun|].
  eapply Forall_impl; [|exact (tree_ize_policy_top_level_only _ _ _ Hrun)].
  intros n [_ Hedges]. exact Hedges.
Defined.

(** ** Further properties of the page offset *)

(** X11. Two passes compose: after a pass with offset [a] that did not
    raise, a pass with offset [b] gives what one pass with offset
    [a + b] gives on the original records.  In particular a second pass
    with offset 0 changes nothing. *)
Theorem apply_page_offset_compose (records out : list record) (a b : Z) :
  apply_page_offset records a = Ok out →
  apply_page_offset out b = apply_page_offset records (a + b)
  ∧ apply_page_offset out 0 = Ok out.
Proof.
  revert out. induction records as [|[[num title] page] records IH];
    intros out; simpl.
  { by intros [= <-]. }
  destruct (py_int page) as [p|e]; [|done].
  destruct (apply_page_offset records a) as [out'|e]; [|done].
  intros [= <-]. destruct (IH out' eq_refl) as [IHb IH0]. simpl.
  rewrite IHb, IH0, Z.add_0_r. split; [|done].
  destruct (apply_page_offset records (a + b)); [|done].
  do 4 f_equal. lia.
Qed.

Lemma apply_page_offset_compose_witness :
  apply_page_offset [("1.", "Intro", PStr "007")] 10
  = Ok [("1.", "Intro", PInt 17)]
  ∧ apply_page_offset [("1.", "Intro", PInt 17)] (-10)
    = apply_page_offset [("1.", "Intro", PStr "007")] (10 + -10).
Proof.
  split; [reflexivity|].
  exact (proj1 (apply_page_offset_compose
                  [("1.", "Intro", PStr "007")] _ 10 (-10) eq_refl)).
Defined.

Lemma apply_page_offset_Ok_inv (records out : list record) (offset : Z) :
  apply_page_offset records offset = Ok out →
  Forall (λ r : record, ∃ z, py_int r.2 = Ok z) records.
Proof.
  revert out. induction records as [|[[num title] page] records IH];
    intros out; simpl; [constructor|].
  destruct (py_int page) as [p|e] eqn:Hp; [|done].
  destruct (apply_page_offset records offset) as [out'|e]; [|done].
  intros _. constructor; [by exists p|by eapply IH].
Qed.

Lemma pages_convert_or_not (records : list record) :
  Forall (λ r : record, ∃ z, py_int r.2 = Ok z) records
  ∨ Exists (λ r : record, py_int r.2 = Raise ValueError) records.
Proof.
  induction records as [|r records [IH|IH]]; [by left| |].
  - destruct (py_int r.2) as [z|[]] eqn:Hz.
    + left. constructor; [by exists z|done].
    + right. by apply Exists_cons_hd.
  - right. by apply Exists_cons_tl.
Qed.

(** X12. The pass raises [ValueError] exactly when some record has a
    page that [int] does not accept, whatever the offset; otherwise it
    returns as many records as it was given. *)
Theorem apply_page_offset_raises (records : list record) (offset : Z) :
  (apply_page_offset records offset = Raise ValueError ↔
   Exists (λ r : record, py_int r.2 = Raise ValueError) records)
  ∧ ((∃ out, apply_page_offset records offset = Ok out
             ∧ length out = length records) ↔
     Forall (λ r : record, ∃ z, py_int r.2 = Ok z) records).
Proof.
  assert (Forall (λ r : record, ∃ z, py_int r.2 = Ok z) records →
          ∃ out, apply_page_offset records offset = Ok out
                 ∧ length out = length records) as Hok.
  { intros Hall.
    destruct (apply_page_offset_Ok records offset Hall) as (out & Hout & Hrel).
    exists out. split; [done|]. symmetry. by eapply Forall2_length. }
  split; split.
  - intros Hraise. destruct (pages_convert_or_not records) as [Hall|Hex]; [|done].
    destruct (Hok Hall) as (out & Hout & _). congruence.
  - intros Hex. destruct (apply_page_offset records offset) as [out|[]] eqn:Hout;
      [|done].
    apply apply_page_offset_Ok_inv in Hout.
    apply list.Exists_exists in Hex as (r & Hr & Hraise).
    rewrite list.Forall_forall in Hout. destruct (Hout r Hr) as [z Hz].
    congruence.
  - intros (out & Hout & _). by eapply apply_page_offset_Ok_inv.
  - exact Hok.
Qed.

(** ** Further properties of [deep_len] and of the emitter *)

(** X13. [deep_len] counts every node of a tree once: it is the number
    of records of the flattened tree, it adds up over the top-level
    nodes, and it is 0 for the empty tree only. *)
Theorem deep_len_counts_nodes (tree1 tree2 : list node) :
  deep_len tree1 = length (flatten tree1)
  ∧ deep_len (tree1 ++ tree2) = deep_len tree1 + deep_len tree2
  ∧ (deep_len tree1 = 0 ↔ tree1 = []).
Proof.
  split; [by rewrite flatten_length|]. split.
  - unfold deep_len. induction tree1 as [|n tree1 IH]; [done|].
    simpl. rewrite IH. lia.
  - destruct tree1 as [|[data children] tree1]; [done|].
    rewrite deep_len_cons. split; [lia|done].
Qed.

(** ** The two checks *)

Lemma check_title_length_filter (maxlen : Z) (records : list record) :
  check_title_length maxlen records
  = print_record
      <$> filter (λ r : record, (maxlen < py_len r.1.1 + py_len r.1.2 + 1)%Z)
            records.
Proof.
  induction records as [|[[num title] page] records IH]; [done|].
  simpl. rewrite filter_cons. simpl.
  case_bool_decide; rewrite decide_bool_decide; case_bool_decide; try done.
  by rewrite IH.
Qed.

Lemma title_text_length (r : record) :
  py_len (title_text r) = (py_len r.1.1 + py_len r.1.2 + 2)%Z.
Proof.
  unfold py_len, title_text. rewrite !string_app_length. simpl. lia.
Qed.

Lemma directive_title_text (n : node) :
  ∃ head,
    directive n
    = head +:+ "/Title (" +:+ title_text (node_data n) +:+ ") /Page "
      +:+ py_str (node_data n).2 +:+ " /OUT pdfmark" +:+ newline.
Proof.
  destruct n as [[[num title] page] children]. unfold directive, title_text.
  simpl. case_bool_decide.
  - exists "[". unfold leaf_line. by rewrite !string_app_assoc.
  - exists ("[/Count -" +:+ pretty (length children) +:+ " ").
    unfold branch_line. by rewrite !string_app_assoc.
Qed.

(** X14. [check_title_length] prints one line for each record whose
    chapter number and title have more than [maxlen - 1] characters
    together, in the order of the records, and nothing else.  The text
    that the emitter puts between the parentheses of [/Title] is the
    chapter number, a colon, a blank and the title, two characters more
    than the two together: so a record is printed exactly when that text
    has more than [maxlen + 1] characters, and a record that is not
    printed can still have a title text of [maxlen + 1] characters. *)
Theorem check_title_length_prints (maxlen : Z) (records : list record) :
  check_title_length maxlen records
  = print_record
      <$> filter (λ r : record, (maxlen + 1 < py_len (title_text r))%Z) records
  ∧ (check_title_length maxlen records = [] ↔
     Forall (λ r : record, (py_len (title_text r) ≤ maxlen + 1)%Z) records)
  ∧ ∀ n, ∃ head,
      directive n
      = head +:+ "/Title (" +:+ title_text (node_data n) +:+ ") /Page "
        +:+ py_str (node_data n).2 +:+ " /OUT pdfmark" +:+ newline.
Proof.
  assert (check_title_length maxlen records
          = print_record
              <$> filter (λ r : record,
                            (maxlen + 1 < py_len (title_text r))%Z) records)
    as Heq.
  { rewrite check_title_length_filter. f_equal.
    apply list_filter_iff. intros r. rewrite title_text_length. lia. }
  split; [done|]. split; [|apply directive_title_text].
  rewrite Heq. split.
  - intros Hnil%fmap_nil_inv. apply list.Forall_forall. intros r Hr.
    destruct (decide (maxlen + 1 < py_len (title_text r))%Z) as [Hlong|]; [|lia].
    assert (r ∈ filter (λ r : record,
                          (maxlen + 1 < py_len (title_text r))%Z) records)
      as Hin by by apply list_elem_of_filter.
    rewrite Hnil in Hin. by apply elem_of_nil in Hin.
  - intros Hall. rewrite filter_Forall_nil; [done|].
    eapply Forall_impl; [|exact Hall]. intros r Hr. simpl in *. lia.
Qed.

(** *** The histogram of pages *)

Lemma page_refs_cons (page : pyval) (r : record) (records : list record) :
  page_refs page (r :: records)
  = (if decide (r.2 = page) then 1 else 0) + page_refs page records.
Proof. unfold page_refs. rewrite filter_cons. by case_decide. Qed.

Lemma count_pages_lookup (counts : gmap pyval Z) (records : list record)
    (page : pyval) :
  count_pages counts records !! page
  = if decide (page_refs page records = 0) then counts !! page
    else Some (default 0%Z (counts !! page) + Z.of_nat (page_refs page records))%Z.
Proof.
  revert counts. induction records as [|[[n t] p] records IH]; intros counts.
  { done. }
  simpl. rewrite IH, page_refs_cons. simpl.
  destruct (decide (p = page)) as [->|Hne].
  - rewrite lookup_insert_eq. simpl.
    repeat case_decide; try lia; f_equal; lia.
  - rewrite lookup_insert_ne by done. simpl.
    repeat case_decide; try lia; done.
Qed.

Lemma page_refs_NoDup (records : list record) :
  NoDup (snd <$> records) ↔ ∀ page, page_refs page records ≤ 1.
Proof.
  induction records as [|r records IH].
  { split; [intros _ page; unfold page_refs; simpl; lia|intros _; constructor]. }
  rewrite fmap_cons, list.NoDup_cons. split.
  - intros [Hnotin Hnd] page. pose proof (proj1 IH Hnd) as Hle.
    rewrite page_refs_cons.
    case_decide as Hp; [|apply Hle]. subst page.
    assert (page_refs r.2 records = 0) as ->; [|lia].
    unfold page_refs. apply length_zero_iff_nil.
    apply filter_Forall_nil, list.Forall_forall. intros r' Hr' Heq.
    apply Hnotin, list_elem_of_fmap. by exists r'.
  - intros Hle. split; [|apply IH].
    + intros (r' & Heq & Hr')%list_elem_of_fmap.
      specialize (Hle r.2). rewrite page_refs_cons, decide_True in Hle by done.
      assert (0 < page_refs r.2 records); [|lia].
      unfold page_refs.
      assert (r' ∈ filter (λ r0 : record, r0.2 = r.2) records) as Hin
        by by apply list_elem_of_filter.
      destruct (filter _ records); [by apply elem_of_nil in Hin|simpl; lia].
    + intros page. specialize (Hle page). rewrite page_refs_cons in Hle. lia.
Qed.

(** X15. [check_duplicate_targets] reports a page exactly when two or
    more records have it, with the number of these records; a page that
    is a string and a page that is an integer are different pages.  The
    report is empty exactly when no two records have the same page. *)
Theorem check_duplicate_targets_reports (records : list record) :
  (∀ page k,
     check_duplicate_targets records !! page = Some k ↔
     k = Z.of_nat (page_refs page records) ∧ 2 ≤ page_refs page records)
  ∧ (check_duplicate_targets records = ∅ ↔ NoDup (snd <$> records)).
Proof.
  assert (∀ page k,
            check_duplicate_targets records !! page = Some k ↔
            k = Z.of_nat (page_refs page records)
            ∧ 2 ≤ page_refs page records) as Hlookup.
  { intros page k. unfold check_duplicate_targets.
    rewrite map_lookup_filter_Some, count_pages_lookup, lookup_empty. simpl.
    case_decide as Hrefs; [split; [by intros [[=] _]|intros [_ ?]; lia]|].
    split.
    - intros [[= <-] Hne]. split; lia.
    - intros [-> Hge]. split; [f_equal|]; lia. }
  split; [done|]. rewrite page_refs_NoDup, map_empty. split.
  - intros Hnone page.
    destruct (decide (page_refs page records ≤ 1)) as [|Hgt]; [done|].
    specialize (Hnone page).
    assert (check_duplicate_targets records !! page
            = Some (Z.of_nat (page_refs page records))) as Hsome.
    { apply Hlookup. split; [done|lia]. }
    congruence.
  - intros Hle page.
    destruct (check_duplicate_targets records !! page) as [k|] eqn:Hk; [|done].
    apply Hlookup in Hk as [_ Hge]. specialize (Hle page). lia.
Qed.

(** ** Further properties of the chunk splitter *)

Lemma splitfiles_nonpositive_eq {A} (l : list A) (n : Z) :
  (n ≤ 0)%Z →
  splitfiles l n = if bool_decide (n = 0%Z) then Raise ValueError else Ok [].
Proof.
  intros Hn. unfold splitfiles, py_range.
  case_bool_decide as Hz; [done|].
  rewrite bool_decide_eq_false_2 by lia.
  assert (Z.to_nat ((0 - Z.of_nat (length l) - n - 1) `div` (- n)) = 0) as ->;
    [|done].
  assert (((0 - Z.of_nat (length l) - n - 1) `div` (- n)) < 1)%Z; [|lia].
  apply Z.div_lt_upper_bound; lia.
Qed.

(** X16. A chunk size that is not positive gives no partition: with 0
    [splitfiles] raises [ValueError] on every list, the empty one too,
    and with a negative size it returns no chunk at all, so that every
    line is dropped without an error. *)
Theorem splitfiles_nonpositive {A} (l : list A) (n : Z) :
  (n ≤ 0)%Z →
  splitfiles l n = if bool_decide (n = 0%Z) then Raise ValueError else Ok [].
Proof. apply splitfiles_nonpositive_eq. Qed.

Lemma splitfiles_nonpositive_witness :
  (-2 ≤ 0)%Z ∧ splitfiles ["a"; "b"; "c"] (-2) = Ok [].
Proof.
  split; [lia|].
  exact (splitfiles_nonpositive ["a"; "b"; "c"] (-2) ltac:(lia)).
Defined.

(** X17. For a positive chunk size [n] there are as many chunks as [n]
    goes into the number of lines, rounded up, and every chunk but the
    last has exactly [n] lines.  No chunk is made for the empty list,
    and a list of at most [n] lines is one chunk, tagged 0. *)
Theorem splitfiles_full_chunks {A} (l : list A) (n : Z) :
  (0 < n)%Z →
  ∃ chunks : list (Z * list A),
    splitfiles l n = Ok chunks
    ∧ (Z.of_nat (length l) ≤ Z.of_nat (length chunks) * n
       < Z.of_nat (length l) + n)%Z
    ∧ (∀ (k : nat) (i : Z) (chunk : list A),
         chunks !! k = Some (i, chunk) → S k < length chunks →
         Z.of_nat (length chunk) = n)
    ∧ (l = [] → chunks = [])
    ∧ (l ≠ [] → (Z.of_nat (length l) ≤ n)%Z → chunks = [(0%Z, l)]).
Proof.
  intros Hn.
  destruct (splitfiles_chunks l n Hn) as (chunks & Hrun & Hcat & Htags).
  exists chunks. split; [done|].
  assert (length chunks = chunk_count l n) as Hcount.
  { rewrite splitfiles_pos in Hrun by done. injection Hrun as <-.
    by rewrite length_fmap, length_seq. }
  assert (Z.of_nat (length l) ≤ Z.of_nat (length chunks) * n
          < Z.of_nat (length l) + n)%Z as Hbounds.
  { rewrite Hcount. destruct (chunk_count_bounds l n 0 Hn) as [Hge _].
    split; [done|]. unfold chunk_count.
    pose proof (Z.mul_div_le (Z.of_nat (length l) + n - 1) n Hn) as Hle.
    assert (0 ≤ (Z.of_nat (length l) + n - 1) `div` n)%Z
      by (apply Z.div_pos; lia).
    rewrite Z2Nat.id by done. lia. }
  split; [done|]. split; [|split].
  - intros k i chunk Hk Hlast.
    destruct (Htags k i chunk Hk) as (-> & Hi & -> & Hlen).
    rewrite length_take, length_drop.
    assert ((Z.of_nat k + 1) * n < Z.of_nat (length l) + n)%Z by nia.
    replace (Z.to_nat (Z.of_nat k * n)) with (k * Z.to_nat n) by lia.
    nia.
  - intros ->. simpl in Hbounds. destruct chunks; [done|]. simpl in *. nia.
  - intros Hne Hshort.
    assert (length chunks = 1) as Hone.
    { destruct l; [done|]. simpl in *. nia. }
    destruct chunks as [|[i chunk] [|]]; try done.
    destruct (Htags 0 i chunk eq_refl) as (-> & _).
    simpl in Hcat. rewrite app_nil_r in Hcat. by rewrite Hcat.
Qed.

Lemma splitfiles_full_chunks_witness :
  (0 < 2)%Z
  ∧ ∃ chunks : list (Z * list string),
      splitfiles ["a"; "b"; "c"; "d"; "e"] 2 = Ok chunks
      ∧ (5 ≤ Z.of_nat (length chunks) * 2 < 5 + 2)%Z.
Proof.
  split; [lia|].
  destruct (splitfiles_full_chunks ["a"; "b"; "c"; "d"; "e"] 2 ltac:(lia))
    as (chunks & Hrun & Hbounds & _).
  exists chunks. split; [exact Hrun|exact Hbounds].
Defined.

(** X18. With a positive chunk size [wite_pdfmark_file] loses no line
    and overwrites no file: the files it writes, taken in order, hold
    exactly the lines of [pdfmark_toc]; the file in position [k] is
    named by the output name followed by [k * n]; and the names are
    pairwise different. *)
Theorem wite_pdfmark_file_distinct_names (tree : list node) (outfile : string)
    (chunksize : pyval) (n : Z) :
  py_int chunksize = Ok n → (0 < n)%Z →
  ∃ files,
    wite_pdfmark_file tree (Some outfile) (Some chunksize) = Ok files
    ∧ concat (snd <$> files) = pdfmark_toc tree
    ∧ (∀ (k : nat) name chunk,
         files !! k = Some (name, chunk) →
         name = outfile +:+ pretty (Z.of_nat k * n)%Z)
    ∧ NoDup (fst <$> files).
Proof.
  intros Hint Hn.
  destruct (wite_pdfmark_file_chunks tree outfile chunksize n Hint Hn)
    as (files & Hrun & Hcat & Hnames).
  exists files. split; [done|]. split; [done|]. split; [done|].
  apply NoDup_alt. intros j k name Hj Hk.
  apply list_lookup_fmap_Some in Hj as ([name1 chunk1] & -> & Hj).
  apply list_lookup_fmap_Some in Hk as ([name2 chunk2] & Heq & Hk).
  simpl in Heq. subst name2.
  pose proof (Hnames j _ _ Hj) as H1. pose proof (Hnames k _ _ Hk) as H2.
  rewrite H1 in H2. apply (inj (String.app outfile)) in H2.
  apply (inj pretty) in H2. nia.
Qed.

Lemma wite_pdfmark_file_distinct_names_witness :
  py_int (PStr "2") = Ok 2%Z ∧ (0 < 2)%Z
  ∧ ∃ files,
      wite_pdfmark_file
        [Node ("1.", "Intro", PInt 2) [Node ("1.1", "Background", PInt 3) []];
         Node ("2.", "Results", PInt 5) []]
        (Some "toc") (Some (PStr "2")) = Ok files
      ∧ NoDup (fst <$> files).
Proof.
  split; [reflexivity|]. split; [lia|].
  destruct (wite_pdfmark_file_distinct_names
              [Node ("1.", "Intro", PInt 2)
                 [Node ("1.1", "Background", PInt 3) []];
               Node ("2.", "Results", PInt 5) []]
              "toc" (PStr "2") 2 eq_refl ltac:(lia))
    as (files & Hrun & _ & _ & Hnodup).
  exists files. split; [exact Hrun|exact Hnodup].
Defined.

(** ** The whole pipeline *)

Lemma flatten_preorder (tree : list node) :
  flatten tree = node_data <$> preorder tree.
Proof.
  induction tree as [|n tree IH]; [done|]. revert tree IH.
  induction n as [data children IHc] using node_forall_ind. intros tree IH.
  rewrite flatten_cons, preorder_cons, fmap_cons, fmap_app, IH. simpl.
  f_equal. f_equal. clear IH tree.
  induction IHc as [|c children Hc _ IH]; [done|].
  exact (Hc children IH).
Qed.

Lemma isdigit_notnewline (c : ascii) : isdigit c = true → notnewline c = true.
Proof.
  intros Hc. unfold notnewline. apply negb_true_iff, bool_decide_eq_false_2.
  by intros ->.
Qed.

Lemma pretty_Z_notnewline (z : Z) : string_forall notnewline (pretty z) = true.
Proof.
  destruct z as [|p|p]; [done|..].
  - change (pretty (Z.pos p)) with (pretty (N.pos p)).
    eapply string_forall_impl; [apply isdigit_notnewline|].
    apply pretty_N_digits.
  - change (pretty (Z.neg p)) with (String "-" (pretty (N.pos p))).
    simpl. eapply string_forall_impl; [apply isdigit_notnewline|].
    apply pretty_N_digits.
Qed.

Lemma chapter_shape_notnewline (num : string) :
  chapter_shape num → string_forall notnewline num = true.
Proof.
  assert (∀ c, isdigit_or_dot c = true → notnewline c = true) as Hdd.
  { intros c Hc. unfold notnewline.
    apply negb_true_iff, bool_decide_eq_false_2. by intros ->. }
  intros (digits & Hdigits & [->|(u & Hu & ->)]).
  - by eapply string_forall_impl.
  - simpl. rewrite (string_forall_impl _ _ _ Hdd Hdigits), andb_true_r.
    unfold notnewline. apply negb_true_iff, bool_decide_eq_false_2.
    by intros ->.
Qed.

Lemma tok_loop_one_line (st : tok_state) (lines : list string) :
  string_forall notnewline st.1 = true →
  Forall record_one_line (yielded (tok_loop st lines)).
Proof.
  revert st. induction lines as [|line lines IH]; intros st Hst; [constructor|].
  rewrite tok_loop_cons.
  destruct (primary line) as [[[num title] page]|] eqn:Hprimary.
  { rewrite (tok_line_primary _ _ _ _ _ Hprimary). cbn [fst snd].
    destruct (primary_line_shape _ _ _ _ Hprimary)
      as (c1 & c2 & tail & _ & _ & _ & _ & Hnum & Htitle & Hdigits & _).
    apply chapter_shape_notnewline in Hnum.
    rewrite yielded_Yield. constructor; [|by apply IH].
    split; [done|]. split; [done|]. simpl.
    by eapply string_forall_impl; [apply isdigit_notnewline|]. }
  destruct st as [prev_num cnt].
  destruct (fallback line) as [[title page]|] eqn:Hfallback.
  - rewrite (tok_line_fallback _ _ _ _ _ Hprimary Hfallback). cbn [fst snd].
    destruct (fallback_line_shape _ _ _ Hfallback)
      as (c & tail & _ & _ & _ & Htitle & Hdigits & _).
    rewrite yielded_Yield. constructor; [|by apply IH].
    split; [|split; [done|]]; simpl.
    + rewrite !string_forall_app. simpl in Hst.
      by rewrite Hst, pretty_Z_notnewline.
    + by eapply string_forall_impl; [apply isdigit_notnewline|].
  - rewrite (tok_line_skip _ _ Hprimary Hfallback). cbn [fst snd].
    rewrite yielded_Print. by apply IH.
Qed.

Lemma offset_record_one_line (offset : Z) (r : record) :
  record_one_line r → record_one_line (offset_record offset r).
Proof.
  intros (Hnum & Htitle & Hpage). unfold offset_record.
  destruct (py_int r.2) as [p|e]; [|done].
  split; [done|]. split; [done|]. apply pretty_Z_notnewline.
Qed.

Lemma directive_one_line (n : node) :
  record_one_line (node_data n) → one_line (directive n).
Proof.
  destruct n as [[[num title] page] children].
  intros (Hnum & Htitle & Hpage). simpl in *. unfold directive.
  case_bool_decide.
  - exists ("[/Title (" +:+ num +:+ ": " +:+ title +:+ ") /Page "
            +:+ py_str page +:+ " /OUT pdfmark").
    split; [unfold leaf_line; by rewrite !string_app_assoc|].
    rewrite !string_forall_app. by rewrite Hnum, Htitle, Hpage.
  - exists ("[/Count -" +:+ pretty (length children) +:+ " /Title (" +:+ num
            +:+ ": " +:+ title +:+ ") /Page " +:+ py_str page
            +:+ " /OUT pdfmark").
    split; [unfold branch_line; by rewrite !string_app_assoc|].
    rewrite !string_forall_app. rewrite Hnum, Htitle, Hpage.
    change (pretty (length children)) with (pretty (N.of_nat (length children))).
    rewrite (string_forall_impl _ _ _ isdigit_notnewline
               (proj2 (pretty_N_digits (N.of_nat (length children))))).
    done.
Qed.

Lemma pdfmark_toc_one_line (tree : list node) :
  Forall record_one_line (flatten tree) → Forall one_line (pdfmark_toc tree).
Proof.
  rewrite pdfmark_toc_preorder, flatten_preorder, !list.Forall_forall.
  intros Hrec line (n & -> & Hn)%list_elem_of_fmap.
  apply directive_one_line, Hrec, list_elem_of_fmap. by exists n.
Qed.

Lemma main_inv (lines : list string) (outfile : option string)
    (page_offset : pyval) (chunksize : option pyval)
    (tree : list node) (files : list (string * list string)) :
  main lines outfile page_offset chunksize = Some (Ok (tree, files)) →
  ∃ offset,
    py_int page_offset = Ok offset
    ∧ tree_ize get_matching_prfx (offset_record offset <$> tokenize lines)
      = Some (Ok tree)
    ∧ wite_pdfmark_file tree outfile chunksize = Ok files.
Proof.
  unfold main. destruct (py_int page_offset) as [offset|e]; [|done].
  destruct (apply_page_offset (tokenize lines) offset) as [flat|e] eqn:Hflat;
    [|done].
  apply apply_page_offset_fmap in Hflat as ->.
  destruct (tree_ize get_matching_prfx _) as [[tree'|e]|] eqn:Htree; [|done..].
  destruct (wite_pdfmark_file tree' outfile chunksize) as [files'|e] eqn:Hw;
    [|done].
  intros [= <- <-]. by exists offset.
Qed.

(** X19. Whatever the text is, every bookmark that [main] emits is one
    line: each directive ends with a line feed and holds no other, so
    the written file has exactly one directive on each line.  The
    tokenizer lets no line feed into a chapter number, a title or a
    page. *)
Theorem main_directives_one_line (lines : list string)
    (outfile : option string) (page_offset : pyval)
    (chunksize : option pyval)
    (tree : list node) (files : list (string * list string)) :
  main lines outfile page_offset chunksize = Some (Ok (tree, files)) →
  Forall one_line (pdfmark_toc tree)
  ∧ Forall record_one_line (tokenize lines).
Proof.
  intros (offset & _ & Htree & _)%main_inv.
  pose proof (tok_loop_one_line tok_init lines eq_refl) as Hrecords.
  fold (tokenize lines) in Hrecords. split; [|done].
  apply pdfmark_toc_one_line.
  rewrite (tree_ize_graph_flatten _ _ (tree_ize_run_graph _ _ Htree)).
  apply Forall_fmap. eapply Forall_impl; [|exact Hrecords].
  intros r Hr. by apply offset_record_one_line.
Qed.

Lemma main_directives_one_line_witness :
  main ["1. Intro 2" +:+ newline; "Chapter one 3" +:+ newline]
       None (PStr "0") None
  = Some (Ok ([Node ("1.", "Intro", PInt 2)
                 [Node ("1..1", "Chapter one", PInt 3) []]], []))
  ∧ Forall one_line
      (pdfmark_toc [Node ("1.", "Intro", PInt 2)
                      [Node ("1..1", "Chapter one", PInt 3) []]]).
Proof.
  assert (main ["1. Intro 2" +:+ newline; "Chapter one 3" +:+ newline]
               None (PStr "0") None
          = Some (Ok ([Node ("1.", "Intro", PInt 2)
                         [Node ("1..1", "Chapter one", PInt 3) []]], [])))
    as Hmain by (vm_compute; reflexivity).
  split; [exact Hmain|].
  exact (proj1 (main_directives_one_line _ _ _ _ _ _ Hmain)).
Defined.

(** What [wite_pdfmark_file] wrote when it raised nothing. *)
Lemma wite_pdfmark_file_Ok (tree : list node) (outfile : option string)
    (chunksize : option pyval) (files : list (string * list string)) :
  wite_pdfmark_file tree outfile chunksize = Ok files →
  match outfile, chunksize with
  | None, _ => files = []
  | Some name, None => files = [(name, pdfmark_toc tree)]
  | Some name, Some size =>
      ∃ n, py_int size = Ok n ∧ n ≠ 0%Z
           ∧ ((0 < n)%Z → concat (snd <$> files) = pdfmark_toc tree)
           ∧ ((n < 0)%Z → files = [])
  end.
Proof.
  destruct outfile as [name|]; [|by intros [= <-]].
  destruct chunksize as [size|]; [|by intros [= <-]].
  destruct (py_int size) as [n|e] eqn:Hsize;
    [|unfold wite_pdfmark_file; by rewrite Hsize].
  intros Hrun. exists n. split; [done|].
  destruct (decide (0 < n)%Z) as [Hpos|Hneg].
  - split; [lia|]. split; [|lia]. intros _.
    destruct (wite_pdfmark_file_chunks tree name size n Hsize Hpos)
      as (files' & Hrun' & Hcat & _).
    rewrite Hrun in Hrun'. by injection Hrun' as ->.
  - unfold wite_pdfmark_file in Hrun.
    rewrite Hsize, (splitfiles_nonpositive_eq _ n) in Hrun by lia.
    case_bool_decide as Hz; [done|]. injection Hrun as <-.
    split; [done|]. split; [lia|done].
Qed.

(** X20. What a run of [main] that raises nothing tells.  [int] accepted
    the page offset, and if an output name and a chunk size were given,
    [int] accepted the chunk size and it was not 0.  The tree that is
    printed has one node, and the emitter one line, for every record of
    the tokenizer, and the records of the tree are the tokenizer's with
    the offset added to their pages.  Without an output name no file is
    written; with a name and no chunk size the one file holds all lines
    of the emitter; with a positive chunk size the files, in order, hold
    them all; and with a negative chunk size no file is written at all,
    without an exception. *)
Theorem main_success (lines : list string) (outfile : option string)
    (page_offset : pyval) (chunksize : option pyval)
    (tree : list node) (files : list (string * list string)) :
  main lines outfile page_offset chunksize = Some (Ok (tree, files)) →
  (∃ offset,
     py_int page_offset = Ok offset
     ∧ flatten tree ≡ₚ offset_record offset <$> tokenize lines)
  ∧ deep_len tree = length (tokenize lines)
  ∧ length (pdfmark_toc tree) = length (tokenize lines)
  ∧ match outfile, chunksize with
    | None, _ => files = []
    | Some name, None => files = [(name, pdfmark_toc tree)]
    | Some name, Some size =>
        ∃ n, py_int size = Ok n ∧ n ≠ 0%Z
             ∧ ((0 < n)%Z → concat (snd <$> files) = pdfmark_toc tree)
             ∧ ((n < 0)%Z → files = [])
    end.
Proof.
  intros (offset & Hoffset & Htree & Hfiles)%main_inv.
  pose proof (tree_ize_graph_flatten _ _ (tree_ize_run_graph _ _ Htree))
    as Hperm.
  assert (deep_len tree = length (tokenize lines)) as Hlen.
  { by rewrite <-flatten_length, Hperm, length_fmap. }
  split; [by exists offset|]. split; [done|]. split.
  - by rewrite pdfmark_toc_preorder, length_fmap, preorder_length.
  - by apply wite_pdfmark_file_Ok.
Qed.

Lemma main_success_witness :
  main ["1. Intro 2" +:+ newline; "1.1 Background 3" +:+ newline;
        "2. Results 5" +:+ newline]
       (Some "toc") (PStr "10") (Some (PStr "-2"))
  = Some (Ok
      ([Node ("1.", "Intro", PInt 12)
          [Node ("1.1", "Background", PInt 13) []];
        Node ("2.", "Results", PInt 15) []],
       []))
  ∧ ∃ n, py_int (PStr "-2") = Ok n ∧ n ≠ 0%Z.
Proof.
  assert (main ["1. Intro 2" +:+ newline; "1.1 Background 3" +:+ newline;
                "2. Results 5" +:+ newline]
               (Some "toc") (PStr "10") (Some (PStr "-2"))
          = Some (Ok
              ([Node ("1.", "Intro", PInt 12)
                  [Node ("1.1", "Background", PInt 13) []];
                Node ("2.", "Results", PInt 15) []],
               []))) as Hmain by (vm_compute; reflexivity).
  split; [exact Hmain|].
  destruct (main_success _ _ _ _ _ _ Hmain) as (_ & _ & _ & n & Hn & Hne & _).
  by exists n.
Defined.

(** ** Unnumbered lines and the counts of the directives *)

Lemma startswith_app (pre rest : string) : startswith (pre +:+ rest) pre = true.
Proof.
  unfold startswith. induction pre as [|c pre IH]; [by destruct rest|].
  rewrite string_app_cons. simpl. by destruct (ascii_dec c c).
Qed.

Lemma tok_loop_unnumbered (prev_num : string) (cnt : Z) (lines : list string) :
  Forall (λ line, primary line = None) lines →
  Forall (λ r : record, startswith r.1.1 prev_num = true)
    (yielded (tok_loop (prev_num, cnt) lines)).
Proof.
  intros Hlines. revert cnt.
  induction Hlines as [|line lines Hprimary _ IH]; intros cnt; [constructor|].
  rewrite tok_loop_cons.
  destruct (fallback line) as [[title page]|] eqn:Hfallback.
  - rewrite (tok_line_fallback _ _ _ _ _ Hprimary Hfallback). cbn [fst snd].
    rewrite yielded_Yield. constructor; [|apply IH]. apply startswith_app.
  - rewrite (tok_line_skip _ _ Hprimary Hfallback). cbn [fst snd].
    rewrite yielded_Print. apply IH.
Qed.

Lemma pipeline_flat (lines : list string) (offset : Z) :
  apply_page_offset (tokenize lines) offset
  = Ok (offset_record offset <$> tokenize lines).
Proof.
  destruct (apply_page_offset_Ok (tokenize lines) offset) as (flat & Hflat & _).
  { eapply Forall_impl; [|apply (tok_loop_page_matched tok_init lines)].
    intros r (line & page & _ & -> & _ & Hne & Hdigits).
    by apply py_int_digits. }
  by rewrite (apply_page_offset_fmap _ _ _ Hflat) in Hflat.
Qed.

(** X21. Lines without a chapter number become entries below the
    numbered line before them: for a line that the primary pattern
    accepts, followed only by lines that it rejects, [main] builds a
    tree with a single top-level node, the record of the numbered line,
    and all the other records below it. *)
Theorem unnumbered_lines_single_root (line : string) (lines : list string)
    (num title page : string) (offset : Z) :
  primary line = Some (num, title, page) →
  Forall (λ l, primary l = None) lines →
  ∃ root subtree,
    main (line :: lines) None (PInt offset) None
    = Some (Ok ([Node root subtree], []))
    ∧ root.1 = (num, title)
    ∧ length (flatten subtree) = length (tokenize (line :: lines)) - 1.
Proof.
  intros Hprimary Hlines.
  assert (tokenize (line :: lines)
          = (num, title, PStr page) :: yielded (tok_loop (num, 1%Z) lines))
    as Htok.
  { unfold tokenize. rewrite tok_loop_cons.
    by rewrite (tok_line_primary _ _ _ _ _ Hprimary). }
  set (rest := yielded (tok_loop (num, 1%Z) lines)) in *.
  set (f := offset_record offset).
  destruct (tree_ize_default (f <$> rest)) as (subtree & Hsub & Hgraph).
  exists (f (num, title, PStr page)), subtree.
  assert (tree_ize get_matching_prfx (f <$> tokenize (line :: lines))
          = Some (Ok [Node (f (num, title, PStr page)) subtree])) as Htree.
  { rewrite Htok, fmap_cons.
    apply tree_ize_graph_run, tree_ize_graph_single; [|done].
    apply Forall_fmap.
    eapply Forall_impl; [|exact (tok_loop_unnumbered num 1 lines Hlines)].
    intros r Hr. unfold f. simpl. by rewrite !(offset_record_num offset). }
  split; [|split].
  - unfold main. cbn [py_int]. unfold f in Htree.
    by rewrite pipeline_flat, Htree.
  - unfold f, offset_record. simpl. by destruct (int_of_str page).
  - rewrite (tree_ize_graph_flatten _ _ Hgraph), length_fmap, Htok. simpl. lia.
Qed.

Lemma unnumbered_lines_single_root_witness :
  primary ("1. Intro 2" +:+ newline) = Some ("1.", "Intro", "2")
  ∧ Forall (λ l, primary l = None)
      ["Chapter one 3" +:+ newline; "noise" +:+ newline]
  ∧ ∃ root subtree,
      main ["1. Intro 2" +:+ newline; "Chapter one 3" +:+ newline;
            "noise" +:+ newline] None (PInt 0) None
      = Some (Ok ([Node root subtree], [])).
Proof.
  assert (primary ("1. Intro 2" +:+ newline) = Some ("1.", "Intro", "2"))
    as Hp by reflexivity.
  assert (Forall (λ l, primary l = None)
            ["Chapter one 3" +:+ newline; "noise" +:+ newline]) as Hl.
  { repeat constructor. }
  split; [exact Hp|]. split; [exact Hl|].
  destruct (unnumbered_lines_single_root _ _ _ _ _ 0 Hp Hl)
    as (root & subtree & Hmain & _).
  exists root, subtree. exact Hmain.
Defined.

Lemma preorder_app (tree1 tree2 : list node) :
  preorder (tree1 ++ tree2) = preorder tree1 ++ preorder tree2.
Proof. apply bind_app. Qed.

(** X22. The counts of the directives add up: over all the nodes of a
    tree, the numbers of direct children, which are the counts that the
    branch lines announce, sum to the number of nodes that are not at
    the top level. *)
Theorem pdfmark_toc_counts_add_up (tree : list node) :
  deep_len tree
  = length tree + sum_list_with (λ n, length (node_children n)) (preorder tree).
Proof.
  induction tree as [|n tree IH]; [done|]. revert tree IH.
  induction n as [data children IHc] using node_forall_ind. intros tree IH.
  rewrite deep_len_cons, preorder_cons, IH. simpl.
  rewrite sum_list_with_app.
  assert (deep_len children
          = length children
            + sum_list_with (λ n, length (node_children n)) (preorder children))
    as ->; [|lia].
  clear IH tree.
  induction IHc as [|c children Hc _ IH]; [done|].
  exact (Hc children IH).
Qed.

(** ** The text [/Count] in a directive *)

Lemma prefix_app_foreign (needle w rest : string) (c : ascii) :
  foreign c needle →
  String.prefix needle (w +:+ String c rest) = String.prefix needle w.
Proof.
  unfold foreign. revert w. induction needle as [|a needle IH]; intros w Hc.
  { by destruct w. }
  simpl in Hc. apply andb_true_iff in Hc as [Ha Hc].
  apply negb_true_iff, bool_decide_eq_false in Ha.
  destruct w as [|b w].
  - simpl. by destruct (ascii_dec a c).
  - rewrite string_app_cons. simpl. destruct (ascii_dec a b); [|done].
    by apply IH.
Qed.

Lemma contains_nil (needle : string) :
  needle ≠ EmptyString → contains needle EmptyString = false.
Proof. by destruct needle. Qed.

(** No match of [needle] runs into a piece that begins with a foreign
    character. *)
Lemma contains_app_r (needle v rest : string) (c : ascii) :
  needle ≠ EmptyString → foreign c needle →
  contains needle (v +:+ String c rest)
  = contains needle v || contains needle (String c rest).
Proof.
  intros Hne Hc. induction v as [|x v IH].
  { by rewrite contains_nil. }
  rewrite string_app_cons.
  change (contains needle (String x (v +:+ String c rest)))
    with (String.prefix needle (String x v +:+ String c rest)
          || contains needle (v +:+ String c rest)).
  change (contains needle (String x v))
    with (String.prefix needle (String x v) || contains needle v).
  rewrite (prefix_app_foreign _ (String x v)) by done.
  by rewrite IH, orb_assoc.
Qed.

Lemma contains_cons_foreign (needle rest : string) (c : ascii) :
  needle ≠ EmptyString → foreign c needle →
  contains needle (String c rest) = contains needle rest.
Proof.
  intros Hne Hc.
  change (contains needle (String c rest))
    with (String.prefix needle (EmptyString +:+ String c rest)
          || contains needle rest).
  rewrite prefix_app_foreign by done. by destruct needle.
Qed.

(** No match of [needle] runs out of a piece that ends with a foreign
    character. *)
Lemma contains_app_l (needle w rest : string) (c : ascii) :
  needle ≠ EmptyString → foreign c needle →
  contains needle ((w +:+ String c EmptyString) +:+ rest)
  = contains needle (w +:+ String c EmptyString) || contains needle rest.
Proof.
  intros Hne Hc. rewrite string_app_assoc.
  change (String c EmptyString +:+ rest) with (String c rest).
  rewrite !contains_app_r, !contains_cons_foreign, contains_nil by done.
  by rewrite orb_false_r.
Qed.

Lemma contains_leaf_line (num title : string) (page : pyval) :
  contains "/Count" (leaf_line num title page)
  = contains "/Count" num || contains "/Count" title
    || contains "/Count" (py_str page).
Proof.
  unfold leaf_line.
  etrans; [exact (contains_app_l "/Count" "[/Title " _ "(" ltac:(done) eq_refl)|].
  etrans; [apply orb_false_l|].
  etrans; [exact (contains_app_r "/Count" num _ ":" ltac:(done) eq_refl)|].
  rewrite <-orb_assoc. f_equal.
  etrans; [exact (contains_app_l "/Count" ":" _ " " ltac:(done) eq_refl)|].
  etrans; [apply orb_false_l|].
  etrans; [exact (contains_app_r "/Count" title _ ")" ltac:(done) eq_refl)|].
  f_equal.
  etrans; [exact (contains_app_l "/Count" ") /Page" _ " " ltac:(done) eq_refl)|].
  etrans; [apply orb_false_l|].
  etrans; [exact (contains_app_r "/Count" (py_str page) _ " " ltac:(done) eq_refl)|].
  apply orb_false_r.
Qed.

Lemma prefix_app_self (s rest : string) : String.prefix s (s +:+ rest) = true.
Proof.
  induction s as [|c s IH]; [by destruct rest|].
  rewrite string_app_cons. simpl. by destruct (ascii_dec c c).
Qed.

Lemma count_stated_directive (n : node) : count_stated n (directive n).
Proof.
  destruct n as [[[num title] page] [|c children]]; unfold count_stated.
  - apply contains_leaf_line.
  - split; [|apply count_field_branch_line].
    unfold directive. rewrite bool_decide_eq_false_2 by done.
    unfold branch_line.
    rewrite <-(string_app_assoc (pretty _) " /Title (" (num +:+ _)),
      <-(string_app_assoc "[/Count -" (pretty _ +:+ " /Title (") (num +:+ _)).
    apply prefix_app_self.
Qed.

(** The claim C2 as it is written fails for a node without children:
    the line of the table of contents below is accepted with a title
    that holds a parenthesis and [/Count -3], the emitter puts the title
    into the directive as it is, and the line of this leaf carries the
    text [/Count], after the parenthesis that closes its title. *)
Lemma pdfmark_toc_leaf_count_text :
  main ["1. x) /Count -3 /Title (y 2" +:+ newline] (Some "toc") (PInt 0) None
  = Some (Ok
      ([Node ("1.", "x) /Count -3 /Title (y", PInt 2) []],
       [("toc",
         ["[/Title (1.: x) /Count -3 /Title (y) /Page 2 /OUT pdfmark"
          +:+ newline])]))
  ∧ ¬ (∀ tree,
         Forall2 (λ n line,
                    match node_children n with
                    | [] => contains "/Count" line = false
                    | _ :: _ => True
                    end)
           (preorder tree) (pdfmark_toc tree)).
Proof.
  split; [vm_compute; reflexivity|]. intros H.
  specialize (H [Node ("1.", "x) /Count -3 /Title (y", PInt 2) []]).
  apply Forall2_cons_1 in H as [H _]. by vm_compute in H.
Qed.

(** C2, amended. For every tree, the lines of [pdfmark_toc] pair off
    with the nodes of the tree in pre-order, and the line of each node
    is its directive.  For a node with [k > 0] direct children the line
    opens with the field [/Count -k], whose integer is minus the number
    of direct children.  For a node without children the emitter writes
    no [/Count] of its own: the text [/Count] occurs in the line exactly
    when it occurs in the record's chapter number, title or page, which
    are put into the line as they are. *)
Theorem pdfmark_toc_count (tree : list node) :
  Forall2 (λ n line, line = directive n ∧ count_stated n line)
    (preorder tree) (pdfmark_toc tree).
Proof.
  rewrite pdfmark_toc_preorder. apply Forall2_fmap_r, Forall_Forall2_diag.
  apply list.Forall_forall. intros n _. split; [done|].
  apply count_stated_directive.
Qed.

(** ** The page of an accepted line *)

Lemma primary_page_of_line (line num title page : string) :
  primary line = Some (num, title, page) → page_of_line line page.
Proof.
  intros (c1 & c2 & tail & -> & _ & Hc2 & Htail & _ & _ & Hdigits & Hne)
    %primary_line_shape.
  exists (num +:+ String c1 title), c2, tail.
  split; [|done]. by rewrite string_app_assoc.
Qed.

Lemma fallback_page_of_line (line title page : string) :
  fallback line = Some (title, page) → page_of_line line page.
Proof.
  intros (c & tail & -> & Hc & Htail & _ & Hdigits & Hne)%fallback_line_shape.
  by exists title, c, tail.
Qed.

Lemma tokenize_app_cons (seen rest : list string) (line : string) :
  tokenize (seen ++ line :: rest)
  = tokenize seen
    ++ yielded [(tok_line (tok_state_after tok_init seen) line).2]
    ++ yielded (tok_loop (tok_line (tok_state_after tok_init seen) line).1 rest).
Proof.
  unfold tokenize, yielded. rewrite tok_loop_app, tok_loop_cons, omap_app.
  f_equal. apply (omap_app _ [_]).
Qed.

(** C9. Every line that [tokenize] accepts gives one record, at the
    line's place in the output, and the page of that record is a string:
    the digits that the pattern matched at the end of that very line,
    one or more, as they stand there (leading zeros kept).  This holds
    for a line that the primary pattern accepts and for a line that only
    the fallback pattern accepts.  No record of the tokenizer has an
    integer page; an integer page is what [apply_page_offset] puts into
    every record it returns; and the tree built from the tokenizer's
    records without that pass carries the strings. *)
Theorem tokenize_page_is_string (seen rest : list string) (line : string) :
  (∀ num title page, primary line = Some (num, title, page) →
     tokenize (seen ++ line :: rest)
     = tokenize seen
       ++ (num, title, PStr page) :: yielded (tok_loop (num, 1%Z) rest)
     ∧ page_of_line line page)
  ∧ (∀ title page, primary line = None → fallback line = Some (title, page) →
     tokenize (seen ++ line :: rest)
     = tokenize seen
       ++ (previous_chapter_number (reverse seen) +:+ "."
             +:+ pretty (running_subcounter (reverse seen)),
           title, PStr page)
       :: yielded (tok_loop (previous_chapter_number (reverse seen),
                             (running_subcounter (reverse seen) + 1)%Z) rest)
     ∧ page_of_line line page)
  ∧ Forall (page_matched (seen ++ line :: rest))
      (tokenize (seen ++ line :: rest))
  ∧ (∀ records offset out,
       apply_page_offset records offset = Ok out →
       Forall (λ r : record, ∃ z, r.2 = PInt z) out)
  ∧ (∃ tree,
       tree_ize get_matching_prfx (tokenize (seen ++ line :: rest))
       = Some (Ok tree)
       ∧ Forall (λ r : record, ∃ page, r.2 = PStr page) (flatten tree)).
Proof.
  pose proof (tok_loop_page_matched tok_init (seen ++ line :: rest)) as Hpages.
  fold (tokenize (seen ++ line :: rest)) in Hpages.
  split; [|split; [|split; [done|split]]].
  - intros num title page Hprimary. split; [|by eapply primary_page_of_line].
    by rewrite tokenize_app_cons, (tok_line_primary _ _ _ _ _ Hprimary).
  - intros title page Hprimary Hfallback.
    split; [|by eapply fallback_page_of_line].
    rewrite tokenize_app_cons, tok_state_after_history.
    by rewrite (tok_line_fallback _ _ _ _ _ Hprimary Hfallback).
  - intros records offset out. apply apply_page_offset_int_pages.
  - destruct (tree_ize_default (tokenize (seen ++ line :: rest)))
      as (tree & Htree & Hgraph).
    exists tree. split; [done|].
    rewrite (tree_ize_graph_flatten _ _ Hgraph).
    eapply Forall_impl; [|exact Hpages].
    intros r (l & page & _ & Hr & _). by exists page.
Qed.

(** The page [007] stays the string it is on its line, for both
    patterns; the offset pass makes it the integer 7. *)
Example tokenize_page_example :
  tokenize ["1. Intro 007" +:+ newline; "Preface 012" +:+ newline]
  = [("1.", "Intro", PStr "007"); ("1..1", "Preface", PStr "012")]
  ∧ apply_page_offset
      [("1.", "Intro", PStr "007"); ("1..1", "Preface", PStr "012")] 0
    = Ok [("1.", "Intro", PInt 7); ("1..1", "Preface", PInt 12)].
Proof. split; vm_compute; reflexivity. Qed.

(** ** What any policy can and cannot do to the records *)

Lemma list_remove_sublist (x : record) (l l' : list record) :
  list_remove x l = Ok l' → l' `sublist_of` l.
Proof.
  revert l'. induction l as [|y l IH]; intros l'; simpl; [done|].
  destruct (decide (y = x)) as [->|Hne].
  - intros [= ->]. by apply sublist_cons.
  - destruct (list_remove x l) as [l''|e]; [|done].
    intros [= <-]. by apply sublist_skip, IH.
Qed.

Lemma remove_while_iterating_sublist (fuel i : nat) (select : record → bool)
    (records records' : list record) :
  remove_while_iterating fuel i select records = Some (Ok records') →
  records' `sublist_of` records.
Proof.
  revert i records. induction fuel as [|fuel IH]; intros i records; simpl.
  { destruct (list_find _ (drop i records)) as [[k child]|]; [done|].
    by intros [= ->]. }
  destruct (list_find _ (drop i records)) as [[k child]|];
    [|by intros [= ->]].
  destruct (list_remove child records) as [l|e] eqn:Hrm; [|done].
  intros Hrun. etrans; [by eapply IH|]. by eapply list_remove_sublist.
Qed.

Lemma find_and_remove_subseteq (find_children : record → list record → found)
    (parent : record) (pool children pool' : list record) :
  find_and_remove find_children parent pool = Some (Ok (children, pool')) →
  children ⊆ pool ∧ pool' ⊆ pool.
Proof.
  unfold find_and_remove.
  destruct (find_children parent pool) as [found| |select].
  - destruct (remove_each found pool) as [l|e] eqn:Hrm; [|done].
    intros [= <- <-]. apply remove_each_Ok in Hrm.
    split; intros r Hr; rewrite Hrm, elem_of_app; [by left|by right].
  - destruct (remove_while_iterating (length pool) 0 (λ _, true) pool)
      as [[l|e]|] eqn:Hrm; [|done..].
    intros [= <- <-]. apply remove_while_iterating_sublist in Hrm.
    split; by apply sublist_subseteq.
  - destruct (remove_while_iterating (length pool) 0 select pool)
      as [[l|e]|] eqn:Hrm; [|done..].
    intros [= <- <-]. apply remove_while_iterating_sublist in Hrm.
    split; [by intros r ?%elem_of_nil|by apply sublist_subseteq].
Qed.

Lemma tree_ize_policy_fuel_subseteq (fuel : nat)
    (find_children : record → list record → found)
    (records : list record) (tree : list node) :
  tree_ize_policy_fuel fuel find_children records = Some (Ok tree) →
  flatten tree ⊆ records.
Proof.
  revert records tree.
  induction fuel as [|fuel IH]; intros records tree; [done|]. simpl.
  destruct records as [|parent rest]; [by intros [= <-]|].
  destruct (find_and_remove find_children parent rest)
    as [[[children rest']|e]|] eqn:Hfr; [|done..].
  destruct (tree_ize_fuel fuel get_matching_prfx children)
    as [[subtree|e]|] eqn:H1; [|done..].
  destruct (tree_ize_policy_fuel fuel find_children rest')
    as [[nodes|e]|] eqn:H2; [|done..].
  intros [= <-]. rewrite flatten_cons.
  apply find_and_remove_subseteq in Hfr as [Hchildren Hrest].
  apply tree_ize_fuel_flatten in H1. apply IH in H2.
  intros r [->|[Hr|Hr]%elem_of_app]%elem_of_cons.
  - by left.
  - right. apply Hchildren. by rewrite <-H1.
  - right. by apply Hrest, H2.
Qed.

(** X9. What a policy can do to the records.
    - When [find_children] returns lists of its own, whatever they hold,
      [tree_ize] never loses or repeats a record silently: it returns a
      tree whose records are those of the input, with their
      multiplicities, or it raises [ValueError].
    - Under every policy, also one that returns the pool it is given or
      a generator over it, a tree that is returned holds no record but
      those of the input.
    - The policy that returns the pool does lose and repeat records
      without an exception: of the four records below the tree has the
      first once, the third twice, and neither the second nor the
      fourth.  The default policy written as a generator loses the
      second of the three records below, and gives no node a child. *)
Theorem tree_ize_any_policy (records : list record) :
  (∀ find_children : record → list record → list record,
     (∃ tree,
        tree_ize_policy (λ parent pool, Fresh (find_children parent pool))
          records = Some (Ok tree)
        ∧ flatten tree ≡ₚ records
        ∧ deep_len tree = length records)
     ∨ tree_ize_policy (λ parent pool, Fresh (find_children parent pool))
         records = Some (Raise ValueError))
  ∧ (∀ (find_children : record → list record → found) tree,
       tree_ize_policy find_children records = Some (Ok tree) →
       flatten tree ⊆ records)
  ∧ tree_ize_policy whole_pool
      [("1.", "Intro", PInt 2); ("1.1", "Background", PInt 3);
       ("1.2", "Method", PInt 4); ("2.", "Results", PInt 5)]
    = Some (Ok [Node ("1.", "Intro", PInt 2)
                  [Node ("1.2", "Method", PInt 4) []];
                Node ("1.2", "Method", PInt 4) []])
  ∧ tree_ize_policy lazy_prfx
      [("1.", "Intro", PInt 2); ("1.1", "Background", PInt 3);
       ("2.", "Results", PInt 5)]
    = Some (Ok [Node ("1.", "Intro", PInt 2) [];
                Node ("2.", "Results", PInt 5) []]).
Proof.
  split; [|split; [|split; reflexivity]].
  - intros fc. unfold tree_ize_policy. rewrite tree_ize_policy_fuel_fresh.
    destruct (tree_ize_fuel_ends (S (length records)) fc records)
      as [[tree|[]] Hrun]; [lia| |by right].
    left. exists tree. split; [done|].
    pose proof (tree_ize_fuel_flatten _ _ _ _ Hrun) as Hperm.
    split; [done|]. by rewrite <-flatten_length, Hperm.
  - intros fc tree. apply tree_ize_policy_fuel_subseteq.
Qed.
